(** * Decoding of Ethereum Merkle-Patricia-Trie nodes (trie/unmarshal.go)

    A shallow embedding of the decode path of the dag-eth trie codec:
    [nibbleToByte], [decodeCompactKey], [keccak256ToCid], the three node
    unpackers and [DecodeTrieNodeBytes].

    Conventions.
    - A Go [byte] is a [Z] in [0, 256) ([is_byte]); a [[]byte] is a [list Z].
      The only arithmetic the decoder performs on bytes is [/ 16] and [% 16],
      which never leave that range, so no wrap-around has to be written out.
    - A decoded RLP item ([interface{}] holding either [[]byte] or
      [[]interface{}]) is a [RawField].
    - Go runtime panics (failed unchecked type assertion, index or slice out
      of range) are a result of their own, [Panic], distinct from a returned
      [error] ([Err]).
    - The IPLD assembler the decoder writes to is an interface; it is modelled
      by the class [Sink], and every assembler method call the decoder makes
      is one [Call] handed to the sink, in program order.  A sink may refuse a
      call; the decoder then returns that error at once, as the Go code does. *)

From Stdlib Require Import String DecimalString DecimalNat ZArith Arith Bool Lia List.
Import ListNotations.

Set Warnings "-register-all".

Local Open Scope string_scope.
Local Open Scope list_scope.
Local Open Scope nat_scope.

(** ** Data model *)

Definition is_byte (b : Z) : Prop := (0 <= b < 256)%Z.

Definition is_nibble (v : Z) : Prop := (0 <= v <= 15)%Z.

(** What [rlp.DecodeBytes] stores into a [[]interface{}]: every element is a
    [[]byte] (an RLP string) or a [[]interface{}] (an RLP list). *)
Inductive RawField : Type :=
| Bytes (b : list Z)
| Fields (l : list RawField).

Inductive NodeKind : Type :=
| UNKNOWN_NODE
| BRANCH_NODE
| EXTENSION_NODE
| LEAF_NODE.

(** Modelled from the spec: the declaration of [NodeKind] and its [String]
    method are not part of the files at hand; the spec names the kinds
    Leaf, Extension, Branch and Unknown, and [unpackExtensionNode] spells the
    leaf key as the literal "Leaf". *)
Definition NodeKind_String (k : NodeKind) : string :=
  match k with
  | UNKNOWN_NODE => "Unknown"
  | BRANCH_NODE => "Branch"
  | EXTENSION_NODE => "Extension"
  | LEAF_NODE => "Leaf"
  end.

(** Values of the multihash and cid libraries.  Both constructors are kept
    uninterpreted: the decoder only builds these values and hands them on.
    [multihash.Encode] returns a nil error for every digest, so the [panic]
    in [keccak256ToCid] is not reachable and is not modelled. *)
Inductive Multihash : Type :=
| multihash_Encode (digest : list Z) (code : Z).

Inductive Cid : Type :=
| cid_NewCidV1 (codec : Z) (mh : Multihash).

Definition KECCAK_256 : Z := 27.

(** The errors the decoder returns, one constructor per [fmt.Errorf] site,
    named after the error the specification gives to that site. *)
Inductive Error : Type :=
| ContainerError (msg : string)
| SinkError (msg : string)
| UnknownHexPrefix
| UnrecognizedNodeType (k : NodeKind)
| ExtensionPathNotBytes
| InvalidEmbeddedNode (got : nat)
| InvalidChildLength (got : nat)
| InvalidBranchValue
| MissingPathField
| MissingValueField.

Definition decimal (n : nat) : string := NilEmpty.string_of_uint (Nat.to_uint n).

(** The text of each error, as the Go source formats it. *)
Definition Error_message (e : Error) : string :=
  match e with
  | ContainerError msg => msg
  | SinkError msg => msg
  | UnknownHexPrefix => "unknown hex prefix"
  | UnrecognizedNodeType k => "unrecognized trie node type " ++ NodeKind_String k
  | ExtensionPathNotBytes => "extension node requires partial path byte slice"
  | InvalidEmbeddedNode got =>
      "unexpected number of entries for leaf node; got " ++ decimal got ++ " want 2"
  | InvalidChildLength got => "branch node child of unexpected length " ++ decimal got
  | InvalidBranchValue => "branch node 17th member should be a byte array (val)"
  | MissingPathField => "leaf node requires partial path byte slice"
  | MissingValueField => "leaf node requires value byte slice"
  end.

Inductive PanicKind : Type :=
| InterfaceConversion
| IndexOutOfRange (index len : nat)
| SliceOutOfRange (from len : nat).

Inductive Result (A : Type) : Type :=
| Ok (a : A)
| Err (e : Error)
| Panic (p : PanicKind).

Arguments Ok {A} a.
Arguments Err {A} e.
Arguments Panic {A} p.

(** ** Control: returned errors and panics *)

Class Monad (m : Type -> Type) : Type := {
  ret : forall {A : Type}, A -> m A;
  bind : forall {A B : Type}, m A -> (A -> m B) -> m B
}.

Class MonadFail (m : Type -> Type) : Type := {
  throw : forall {A : Type}, Error -> m A;
  panic : forall {A : Type}, PanicKind -> m A
}.

Declare Scope go_scope.
Delimit Scope go_scope with go.

Notation "x <- c ;; k" := (bind c (fun x => k))
  (at level 61, c at next level, right associativity) : go_scope.
Notation "' pat <- c ;; k" := (bind c (fun x => match x with pat => k end))
  (at level 61, pat pattern, c at next level, right associativity) : go_scope.
Notation "c ;; k" := (bind c (fun _ => k))
  (at level 61, right associativity) : go_scope.

Local Open Scope go_scope.

#[export] Instance Result_Monad : Monad Result := {
  ret := fun A a => Ok a;
  bind := fun A B c k =>
    match c with
    | Ok a => k a
    | Err e => Err e
    | Panic p => Panic p
    end
}.

#[export] Instance Result_MonadFail : MonadFail Result := {
  throw := fun A e => Err e;
  panic := fun A p => Panic p
}.

Section Primitives.
Context {m : Type -> Type} {Mm : Monad m} {Fm : MonadFail m}.

(** [l[i]]: panics when [i] is not below [len(l)]. *)
Definition index {A : Type} (l : list A) (i : nat) : m A :=
  match nth_error l i with
  | Some x => ret x
  | None => panic (IndexOutOfRange i (length l))
  end.

(** [s[from:]]: panics when [from] exceeds [len(s)]. *)
Definition sliceFrom {A : Type} (s : list A) (from : nat) : m (list A) :=
  if from <=? length s then ret (skipn from s)
  else panic (SliceOutOfRange from (length s)).

(** [x.([]byte)], the one-result form: panics on any other dynamic type. *)
Definition assertBytes (x : RawField) : m (list Z) :=
  match x with
  | Bytes b => ret b
  | Fields _ => panic InterfaceConversion
  end.
End Primitives.

(** ** NibbleExpander *)

(** [nibbleToByte]: the loop appends [b/16] and then [b%16] to [out] for every
    [b] of [k], in order. *)
Definition nibbleToByte (k : list Z) : list Z :=
  fold_left (fun out b => (out ++ [(b / 16)%Z]) ++ [(b mod 16)%Z]) k [].

(** The specification's [expand], following its words: two nibbles per input
    byte, high nibble first. *)
Definition expand (bytes : list Z) : list Z :=
  flat_map (fun b => [(b / 16)%Z; (b mod 16)%Z]) bytes.

(** ** CompactKeyDecoder *)

Definition decodeCompactKey (i : list RawField) : Result (NodeKind * list RawField) :=
  i0 <- index i 0 ;;
  first <- assertBytes i0 ;;
  first0 <- index first 0 ;;
  match (first0 / 16)%Z with
  | 0%Z =>
      path <- sliceFrom (nibbleToByte first) 2 ;;
      i1 <- index i 1 ;;
      ret (EXTENSION_NODE, [Bytes path; i1])
  | 1%Z =>
      path <- sliceFrom (nibbleToByte first) 1 ;;
      i1 <- index i 1 ;;
      ret (EXTENSION_NODE, [Bytes path; i1])
  | 2%Z =>
      path <- sliceFrom (nibbleToByte first) 2 ;;
      i1 <- index i 1 ;;
      ret (LEAF_NODE, [Bytes path; i1])
  | 3%Z =>
      path <- sliceFrom (nibbleToByte first) 1 ;;
      i1 <- index i 1 ;;
      ret (LEAF_NODE, [Bytes path; i1])
  | _ => throw UnknownHexPrefix
  end.

(** ** Links *)

Definition keccak256ToCid (codec : Z) (h : list Z) : Cid :=
  cid_NewCidV1 codec (multihash_Encode h KECCAK_256).

(** ** The builder sink *)

(** The assembler methods the decoder calls.  [BeginMap] stands for
    [na.BeginMap(n)] and [ma.AssembleValue().BeginMap(n)], [AssignKey] for
    [ma.AssembleKey().AssignString(k)], the other [Assign...] for the method
    of that name on [ma.AssembleValue()], and [Finish] for [Finish()] of the
    map assembler that is open. *)
Inductive Call : Type :=
| BeginMap (sizeHint : Z)
| AssignKey (k : string)
| AssignBytes (b : list Z)
| AssignNull
| AssignLink (c : Cid)
| Finish.

Class Sink : Type := {
  sink : Type;
  sink_call : sink -> Call -> Error + sink
}.

(** A decoding step: it may call the sink, and it ends in a value, a returned
    error or a panic.  The sink keeps whatever was written before the end. *)
Definition M {K : Sink} (A : Type) : Type := sink -> Result A * sink.

#[export] Instance M_Monad {K : Sink} : Monad (@M K) := {
  ret := fun A a s => (Ok a, s);
  bind := fun A B c k s =>
    match c s with
    | (Ok a, s') => k a s'
    | (Err e, s') => (Err e, s')
    | (Panic p, s') => (Panic p, s')
    end
}.

#[export] Instance M_MonadFail {K : Sink} : MonadFail (@M K) := {
  throw := fun A e s => (Err e, s);
  panic := fun A p s => (Panic p, s)
}.

Section Unpackers.
Context {K : Sink}.

(** [if err := <assembler call>; err != nil { return err }] *)
Definition call (c : Call) : M unit :=
  fun s =>
    match sink_call s c with
    | inl err => (Err err, s)
    | inr s' => (Ok tt, s')
    end.

Definition liftR {A : Type} (r : Result A) : M A := fun s => (r, s).

(** [for i := from; i < from + count; i++ { body }] *)
Fixpoint forRange (from count : nat) (body : nat -> M unit) : M unit :=
  match count with
  | O => ret tt
  | S count' => body from ;; forRange (S from) count' body
  end.

Definition unpackLeafNode (nodeFields : list RawField) (codec : Z) : M unit :=
  f0 <- index nodeFields 0 ;;
  match f0 with
  | Fields _ => throw MissingPathField
  | Bytes partialPath =>
      f1 <- index nodeFields 1 ;;
      match f1 with
      | Fields _ => throw MissingValueField
      | Bytes valBytes =>
          call (AssignKey "PartialPath") ;;
          call (AssignBytes partialPath) ;;
          call (AssignKey "Value") ;;
          call (AssignBytes valBytes)
      end
  end.

(** In the two unpackers below a field that is not a [[]byte] is asserted to
    be a [[]interface{}]; a [RawField] is one or the other, so the error
    returned when both assertions fail has no counterpart here. *)
Definition unpackExtensionNode (nodeFields : list RawField) (codec : Z) : M unit :=
  f0 <- index nodeFields 0 ;;
  match f0 with
  | Fields _ => throw ExtensionPathNotBytes
  | Bytes partialPath =>
      call (AssignKey "PartialPath") ;;
      call (AssignBytes partialPath) ;;
      call (AssignKey "Child") ;;
      f1 <- index nodeFields 1 ;;
      match f1 with
      | Bytes childLink =>
          call (AssignLink (keccak256ToCid codec childLink))
      | Fields childLeaf =>
          if negb (length childLeaf =? 2) then
            throw (InvalidEmbeddedNode (length childLeaf))
          else
            call (BeginMap 1) ;;
            call (AssignKey "Leaf") ;;
            call (BeginMap 2) ;;
            unpackLeafNode childLeaf codec ;;
            call Finish ;;
            call Finish
      end
  end.

(** The body of the loop of [unpackBranchNode], for child [i]. *)
Definition unpackBranchNode_child (nodeFields : list RawField) (codec : Z)
    (i : nat) : M unit :=
  call (AssignKey ("Child" ++ decimal i)) ;;
  fi <- index nodeFields i ;;
  match fi with
  | Bytes childLink =>
      match length childLink with
      | 0 => call AssignNull
      | 32 => call (AssignLink (keccak256ToCid codec childLink))
      | _ => throw (InvalidChildLength (length childLink))
      end
  | Fields childLeaf =>
      if negb (length childLeaf =? 2) then
        throw (InvalidEmbeddedNode (length childLeaf))
      else
        call (BeginMap 1) ;;
        call (AssignKey "Leaf") ;;
        call (BeginMap 2) ;;
        unpackLeafNode childLeaf codec ;;
        call Finish ;;
        call Finish
  end.

Definition unpackBranchNode (nodeFields : list RawField) (codec : Z) : M unit :=
  forRange 0 16 (unpackBranchNode_child nodeFields codec) ;;
  call (AssignKey "Value") ;;
  f16 <- index nodeFields 16 ;;
  match f16 with
  | Fields _ => throw InvalidBranchValue
  | Bytes valBytes =>
      if length valBytes =? 0 then call AssignNull
      else call (AssignBytes valBytes)
  end.

(** ** DecodeEntry *)

(** [DecodeTrieNodeBytes] from [na.BeginMap(1)] on, for the fields the
    container parser returned. *)
Definition decodeNodeFields (nodeFields : list RawField) (codec : Z) : M unit :=
  call (BeginMap 1) ;;
  match length nodeFields with
  | 2 =>
      '(nodeKind, decoded) <- liftR (decodeCompactKey nodeFields) ;;
      match nodeKind with
      | EXTENSION_NODE =>
          call (AssignKey (NodeKind_String EXTENSION_NODE)) ;;
          call (BeginMap 2) ;;
          unpackExtensionNode decoded codec ;;
          call Finish
      | LEAF_NODE =>
          call (AssignKey (NodeKind_String LEAF_NODE)) ;;
          call (BeginMap 2) ;;
          unpackLeafNode decoded codec ;;
          call Finish
      | _ => throw (UnrecognizedNodeType nodeKind)
      end
  | 17 =>
      call (AssignKey (NodeKind_String BRANCH_NODE)) ;;
      call (BeginMap 17) ;;
      unpackBranchNode nodeFields codec ;;
      call Finish
  | _ => ret tt
  end ;;
  call Finish.

(** The container parser [rlp.DecodeBytes(src, &nodeFields)] is a library of
    its own; the decoder is stated for any parser. *)
Variable rlp_DecodeBytes : list Z -> Error + list RawField.

Definition DecodeTrieNodeBytes (src : list Z) (codec : Z) : M unit :=
  match rlp_DecodeBytes src with
  | inl err => throw err
  | inr nodeFields => decodeNodeFields nodeFields codec
  end.
End Unpackers.

(** ** Two sinks *)

(** The recording sink accepts every call and keeps the calls in order. *)
Definition recorder : Sink := {|
  sink := list Call;
  sink_call := fun s c => inr (s ++ [c])
|}.

(** Run a decoding step against the recording sink, from no calls. *)
Definition run {A : Type} (c : @M recorder A) : Result A * list Call := c [].

(** The assembling sink builds the node the calls describe, the way a generic
    map builder does: a stack of open maps, each with its entries so far and
    the key that awaits its value.  It refuses a call that is out of place. *)
Inductive Node : Type :=
| NNull
| NBytes (b : list Z)
| NLink (c : Cid)
| NMap (entries : list (string * Node)).

Record Frame : Type := MkFrame {
  entries : list (string * Node);
  pending : option string
}.

Record Assembly : Type := MkAssembly {
  open : list Frame;
  built : option Node
}.

Definition misuse {A : Type} : Error + A := inl (SinkError "misuse of the assembler").

(** Store a finished value where the assembly expects one. *)
Definition store (a : Assembly) (v : Node) : Error + Assembly :=
  match open a, built a with
  | [], None => inr (MkAssembly [] (Some v))
  | [], Some _ => misuse
  | f :: below, _ =>
      match pending f with
      | Some k => inr (MkAssembly (MkFrame (entries f ++ [(k, v)]) None :: below) (built a))
      | None => misuse
      end
  end.

Definition expectsValue (a : Assembly) : bool :=
  match open a, built a with
  | [], None => true
  | [], Some _ => false
  | f :: _, _ => match pending f with Some _ => true | None => false end
  end.

Definition hasKey (k : string) (es : list (string * Node)) : bool :=
  existsb (fun e => String.eqb (fst e) k) es.

Definition assembler : Sink := {|
  sink := Assembly;
  sink_call := fun a c =>
    match c with
    | BeginMap _ =>
        if expectsValue a then inr (MkAssembly (MkFrame [] None :: open a) (built a))
        else misuse
    | AssignKey k =>
        match open a with
        | f :: below =>
            match pending f with
            | Some _ => misuse
            | None =>
                if hasKey k (entries f) then inl (SinkError "repeated map key")
                else inr (MkAssembly (MkFrame (entries f) (Some k) :: below) (built a))
            end
        | [] => misuse
        end
    | AssignBytes b => store a (NBytes b)
    | AssignNull => store a NNull
    | AssignLink l => store a (NLink l)
    | Finish =>
        match open a with
        | f :: below =>
            match pending f with
            | Some _ => misuse
            | None => store (MkAssembly below (built a)) (NMap (entries f))
            end
        | [] => misuse
        end
    end
|}.

(** Run a decoding step against the assembling sink; the node is there once
    the outermost map is finished. *)
Definition assemble {A : Type} (c : @M assembler A) : Result A * option Node :=
  let '(r, a) := c (MkAssembly [] None) in
  (r, match open a with [] => built a | _ :: _ => None end).

(** ** A container parser to run byte inputs through

    The RLP wire format, for concrete inputs only: one byte below 0x80 is a
    string of itself; 0x80+n (n <= 55) heads a string of n bytes and 0xc0+n a
    list whose items fill n bytes; 0xb7+k and 0xf7+k head a string or a list
    whose length is written in the k bytes that follow.  The input has to be
    one list and nothing more, with canonical sizes. *)
Definition bigEndian (bs : list Z) : Z := fold_left (fun acc b => acc * 256 + b)%Z bs 0%Z.

Definition rlpError {A : Type} (msg : string) : Error + A := inl (ContainerError msg).

(** Head of the next item: is it a list, how long is its payload, and what
    follows the head. *)
Definition rlpHead (src : list Z) : Error + (bool * nat * list Z) :=
  match src with
  | [] => rlpError "rlp: unexpected EOF"
  | b :: rest =>
      let long (isList : bool) (k : nat) :=
        let size := bigEndian (firstn k rest) in
        if length rest <? k then rlpError "rlp: unexpected EOF"
        else if (nth 0 rest 0 =? 0)%Z then rlpError "rlp: non-canonical integer"
        else if (size <? 56)%Z then rlpError "rlp: non-canonical size information"
        else inr (isList, Z.to_nat size, skipn k rest) in
      if (b <? 128)%Z then inr (false, 1, src)
      else if (b <? 184)%Z then
        if (b =? 129)%Z && (nth 0 rest 128 <? 128)%Z
        then rlpError "rlp: non-canonical size information"
        else inr (false, Z.to_nat (b - 128), rest)
      else if (b <? 192)%Z then long false (Z.to_nat (b - 183))
      else if (b <? 248)%Z then inr (true, Z.to_nat (b - 192), rest)
      else long true (Z.to_nat (b - 247))
  end.

Fixpoint rlpItems (fuel : nat) (src : list Z) : Error + list RawField :=
  match fuel, src with
  | _, [] => inr []
  | O, _ :: _ => rlpError "rlp: out of fuel"
  | S fuel', _ :: _ =>
      match rlpHead src with
      | inl err => inl err
      | inr (isList, size, rest) =>
          if length rest <? size then rlpError "rlp: value size exceeds available input length"
          else
            let item :=
              if isList then
                match rlpItems fuel' (firstn size rest) with
                | inl err => inl err
                | inr items => inr (Fields items)
                end
              else inr (Bytes (firstn size rest)) in
            match item, rlpItems fuel' (skipn size rest) with
            | inl err, _ => inl err
            | _, inl err => inl err
            | inr x, inr xs => inr (x :: xs)
            end
      end
  end.

Definition rlpDecodeBytes (src : list Z) : Error + list RawField :=
  match rlpHead src with
  | inl err => inl err
  | inr (false, _, _) => rlpError "rlp: expected input list for []interface {}"
  | inr (true, size, rest) =>
      if length rest <? size then rlpError "rlp: value size exceeds available input length"
      else if size <? length rest then rlpError "rlp: input contains more than one value"
      else rlpItems (length rest) rest
  end.

(** ** What the sink is expected to receive *)

(** The calls a leaf unpacker makes for path bytes [p] and value [v]. *)
Definition leafCalls (p v : list Z) : list Call :=
  [AssignKey "PartialPath"; AssignBytes p; AssignKey "Value"; AssignBytes v].

(** The calls that write an inline leaf as a child value. *)
Definition inlineLeafCalls (p v : list Z) : list Call :=
  [BeginMap 1; AssignKey "Leaf"; BeginMap 2] ++ leafCalls p v ++ [Finish; Finish].

(** A branch child the loop of [unpackBranchNode] gets past: a byte string of
    length 0 or 32, or a list of two byte strings. *)
Definition resolvableChild (f : RawField) : bool :=
  match f with
  | Bytes b => (length b =? 0) || (length b =? 32)
  | Fields [Bytes _; Bytes _] => true
  | Fields _ => false
  end.

(** The calls for the value of a resolvable branch child; [path] says which
    bytes an inline leaf gets for its first field. *)
Definition childValueCalls (path : list Z -> list Z) (codec : Z) (f : RawField)
    : list Call :=
  match f with
  | Bytes b => if length b =? 0 then [AssignNull] else [AssignLink (keccak256ToCid codec b)]
  | Fields [Bytes p; Bytes v] => inlineLeafCalls (path p) v
  | Fields _ => []
  end.

Fixpoint childrenCalls (path : list Z -> list Z) (codec : Z) (from : nat)
    (children : list RawField) : list Call :=
  match children with
  | [] => []
  | f :: children' =>
      AssignKey ("Child" ++ decimal from)
      :: childValueCalls path codec f ++ childrenCalls path codec (S from) children'
  end.

(** The calls that open a branch node. *)
Definition branchOpening : list Call :=
  [BeginMap 1; AssignKey "Branch"; BeginMap 17].

(** The partial path [decodeCompactKey] yields for the first field
    [b :: rest]: the flag nibble is dropped, and with it the padding nibble
    when the flag says the path has an even number of nibbles. *)
Definition compactPath (b : Z) (rest : list Z) : list Z :=
  if Z.even (b / 16) then nibbleToByte rest
  else (b mod 16)%Z :: nibbleToByte rest.

(** The error of the leaf unpacker on two fields that are not both byte
    strings: the first field is looked at first. *)
Definition leafFieldError (f0 : RawField) : Error :=
  match f0 with
  | Fields _ => MissingPathField
  | Bytes _ => MissingValueField
  end.

(** A result that is a value or a returned error. *)
Definition noPanic {A : Type} (r : Result A) : Prop :=
  match r with
  | Panic _ => False
  | _ => True
  end.

(** ** Sample inputs, in RLP *)

(** A branch node whose first child is the embedded leaf [[0x3a], [0x01]] and
    whose other fields are empty, in RLP. *)
Definition branchWithInlineLeaf : list Z :=
  ([211; 194; 58; 1] ++ repeat 128 16)%Z.

(** An extension node whose child is the embedded 2-item list
    [[0x11], [0x01]], flagged as an Extension by its high nibble 1, in RLP. *)
Definition extensionWithInlineExtension : list Z := [196; 17; 194; 17; 1]%Z.

(** The same embedded list as child 0 of a branch node, all else empty. *)
Definition branchWithInlineExtension : list Z :=
  ([211; 194; 17; 1] ++ repeat 128 16)%Z.

(** A branch node whose child 3 is an empty list, all else empty, in RLP. *)
Definition branchWithEmptyListChild : list Z :=
  ([209; 128; 128; 128; 192] ++ repeat 128 13)%Z.

(** Scenario A in RLP, with the hash 1, 2, ..., 32. *)
Definition scenarioA_hash : list Z := map Z.of_nat (seq 1 32).

Definition scenarioA_src : list Z :=
  ([241] ++ repeat 128 5 ++ [160] ++ scenarioA_hash ++ repeat 128 11)%Z.

(** ** The reader entry point *)

(** An [io.Reader] as [DecodeTrieNode] looks at it: [reader_Bytes] is what
    [Bytes()] returns when the reader has that method, and [reader_ReadAll]
    is what [ioutil.ReadAll] returns for it. *)
Record Reader : Type := MkReader {
  reader_Bytes : option (list Z);
  reader_ReadAll : Error + list Z
}.

Definition DecodeTrieNode {K : Sink}
    (rlp_DecodeBytes : list Z -> Error + list RawField)
    (input : Reader) (codec : Z) : M unit :=
  match reader_Bytes input with
  | Some src => DecodeTrieNodeBytes rlp_DecodeBytes src codec
  | None =>
      match reader_ReadAll input with
      | inl err => throw err
      | inr src => DecodeTrieNodeBytes rlp_DecodeBytes src codec
      end
  end.

(** ** The state trie codec: prototype chooser *)

(** An [ipld.Link]: a [cidlink.Link] around a cid, or a link of another
    implementation. *)
Inductive Link : Type :=
| CidLink (c : Cid)
| OtherLink (id : nat).

(** [c.Prefix().Codec] *)
Definition Cid_codec (c : Cid) : Z :=
  match c with
  | cid_NewCidV1 codec _ => codec
  end.

(** [cid.EthStateTrie] *)
Definition MultiCodecType : Z := 150.

Section Chooser.
Variables NodePrototype LinkContext : Type.

(** [dageth.Type.TrieNode] *)
Variable TrieNode : NodePrototype.

Definition Chooser : Type := Link -> LinkContext -> NodePrototype * option Error.

Definition AddSupportToChooser (existing : Chooser) : Chooser :=
  fun lnk lnkCtx =>
    match lnk with
    | CidLink c =>
        if (Cid_codec c =? MultiCodecType)%Z then (TrieNode, None)
        else existing lnk lnkCtx
    | OtherLink _ => existing lnk lnkCtx
    end.
End Chooser.

(** ** Replaying calls *)

(** Hand the calls to a sink one by one, up to the first it refuses. *)
Fixpoint feed {K : Sink} (s : sink) (calls : list Call) : option Error * sink :=
  match calls with
  | [] => (None, s)
  | c :: calls' =>
      match sink_call s c with
      | inl err => (Some err, s)
      | inr s' => feed s' calls'
      end
  end.

(** The outcome of a recorded run when its calls are replayed on a sink. *)
Definition replay {K : Sink} {A : Type} (recorded : Result A * list Call)
    (s : sink) : Result A * sink :=
  match feed s (snd recorded) with
  | (Some err, s') => (Err err, s')
  | (None, s') => (fst recorded, s')
  end.

(** ** The node a decoded container stands for *)

Definition leafNode (p v : list Z) : Node :=
  NMap [("PartialPath", NBytes p); ("Value", NBytes v)].

(** The value written for a resolvable child of a branch. *)
Definition branchChildNode (codec : Z) (f : RawField) : Node :=
  match f with
  | Bytes b => if length b =? 0 then NNull else NLink (keccak256ToCid codec b)
  | Fields [Bytes p; Bytes v] => NMap [("Leaf", leafNode p v)]
  | Fields _ => NNull
  end.

Fixpoint branchChildEntries (codec : Z) (from : nat) (children : list RawField)
    : list (string * Node) :=
  match children with
  | [] => []
  | f :: children' =>
      (("Child" ++ decimal from)%string, branchChildNode codec f)
      :: branchChildEntries codec (S from) children'
  end.

(** The value written for the child of an extension. *)
Definition extensionChildNode (codec : Z) (f : RawField) : Node :=
  match f with
  | Bytes b => NLink (keccak256ToCid codec b)
  | Fields [Bytes p; Bytes v] => NMap [("Leaf", leafNode p v)]
  | Fields _ => NNull
  end.

Definition isBytes (f : RawField) : bool :=
  match f with
  | Bytes _ => true
  | Fields _ => false
  end.

(** The containers that decode without error or panic. *)
Definition acceptable (nodeFields : list RawField) : bool :=
  match nodeFields with
  | [Bytes (b :: _); second] =>
      match (b / 16)%Z with
      | 0%Z | 1%Z =>
          match second with
          | Bytes _ => true
          | Fields [Bytes _; Bytes _] => true
          | Fields _ => false
          end
      | 2%Z | 3%Z => isBytes second
      | _ => false
      end
  | [_; _] => false
  | _ =>
      if length nodeFields =? 17 then
        forallb resolvableChild (firstn 16 nodeFields)
        && isBytes (nth 16 nodeFields (Fields []))
      else true
  end.

(** The node an acceptable container is decoded to. *)
Definition decodedNode (codec : Z) (nodeFields : list RawField) : Node :=
  match nodeFields with
  | [Bytes (b :: rest); second] =>
      if (b / 16 <? 2)%Z then
        NMap [("Extension",
               NMap [("PartialPath", NBytes (compactPath b rest));
                     ("Child", extensionChildNode codec second)])]
      else
        NMap [("Leaf",
               leafNode (compactPath b rest)
                 match second with Bytes v => v | Fields _ => [] end)]
  | _ =>
      if length nodeFields =? 17 then
        NMap [("Branch",
               NMap (branchChildEntries codec 0 (firstn 16 nodeFields)
                     ++ [("Value",
                          match nth 16 nodeFields (Fields []) with
                          | Bytes [] => NNull
                          | Bytes valBytes => NBytes valBytes
                          | Fields _ => NNull
                          end)]))]
      else NMap []
  end.

(** A decoding step, given for every sink, that behaves on each sink as the
    replay of what it does on the recording sink. *)
Definition Replays {A : Type} (c : forall K : Sink, @M K A) : Prop :=
  forall (K : Sink) (s : sink), c K s = replay (c recorder []) s.

(** A step that, on the recording sink, only adds calls, all of them in [P]. *)
Definition Emits {A : Type} (P : Call -> Prop) (c : @M recorder A) : Prop :=
  forall s : list Call, exists tr, snd (c s) = s ++ tr /\ Forall P tr.

(** ** What a run can end in *)

(** A result is a value, or an error in [E], or a panic in [P]. *)
Definition endsIn {A : Type} (E : Error -> Prop) (P : PanicKind -> Prop)
    (r : Result A) : Prop :=
  match r with
  | Ok _ => True
  | Err e => E e
  | Panic p => P p
  end.

(** The errors the decoder itself can return. *)
Definition decoderError (e : Error) : Prop :=
  match e with
  | UnknownHexPrefix | InvalidEmbeddedNode _ | InvalidChildLength _
  | InvalidBranchValue | MissingPathField | MissingValueField => True
  | _ => False
  end.

(** The panics [decodeCompactKey] can raise on a 2-item node. *)
Definition decoderPanic (p : PanicKind) : Prop :=
  p = InterfaceConversion \/ p = IndexOutOfRange 0 0.

(** A link call carries a cid made by [keccak256ToCid] for [codec]. *)
Definition linkFor (codec : Z) (c : Call) : Prop :=
  match c with
  | AssignLink l => exists h, l = keccak256ToCid codec h
  | _ => True
  end.

(** Put two nibbles back into one byte, pair by pair. *)
Fixpoint packNibbles (nibbles : list Z) : list Z :=
  match nibbles with
  | hi :: lo :: nibbles' => (16 * hi + lo)%Z :: packNibbles nibbles'
  | _ => []
  end.


(** ** Proof steps *)

Ltac go_step :=
  cbn [bind ret throw panic M_Monad M_MonadFail call liftR sink_call recorder].

Ltac go_index := cbn [index nth_error]; go_step.

Ltac trace_eq :=
  repeat first [rewrite <- !app_assoc | progress cbn [app]]; reflexivity.

(** * Properties *)

(** ** NibbleExpander *)

Lemma nibbleToByte_acc (k acc : list Z) :
  fold_left (fun out b => (out ++ [(b / 16)%Z]) ++ [(b mod 16)%Z]) k acc
  = acc ++ expand k.
Proof.
  revert acc. induction k as [|b k IH]; intro acc; simpl.
  - now rewrite app_nil_r.
  - rewrite IH, <- !app_assoc. reflexivity.
Qed.

(** The loop of the source computes the specification's [expand]. *)
Lemma nibbleToByte_expand (k : list Z) : nibbleToByte k = expand k.
Proof. unfold nibbleToByte. now rewrite nibbleToByte_acc. Qed.

Lemma expand_cons (b : Z) (k : list Z) :
  expand (b :: k) = (b / 16)%Z :: (b mod 16)%Z :: expand k.
Proof. reflexivity. Qed.

Lemma expand_length (k : list Z) : length (expand k) = 2 * length k.
Proof. induction k as [|b k IH]; simpl; [reflexivity | rewrite IH; lia]. Qed.

Lemma byte_nibbles (b : Z) :
  is_byte b -> is_nibble (b / 16) /\ is_nibble (b mod 16).
Proof.
  unfold is_byte, is_nibble. intros Hb. split.
  - split; [apply Z.div_pos; lia | ].
    assert (b / 16 < 16)%Z by (apply Z.div_lt_upper_bound; lia). lia.
  - pose proof (Z.mod_pos_bound b 16 ltac:(lia)). lia.
Qed.

Lemma expand_nibbles (k : list Z) :
  Forall is_byte k -> Forall is_nibble (expand k).
Proof.
  induction 1 as [|b k Hb Hk IH]; simpl; [constructor | ].
  destruct (byte_nibbles b Hb) as [Hhi Hlo].
  constructor; [exact Hhi | constructor; [exact Hlo | exact IH]].
Qed.

Lemma expand_nth (k : list Z) (i : nat) (b : Z) :
  nth_error k i = Some b ->
  nth_error (expand k) (2 * i) = Some (b / 16)%Z /\
  nth_error (expand k) (2 * i + 1) = Some (b mod 16)%Z.
Proof.
  revert i. induction k as [|a k IH]; intros [|i] H; simpl in H; try discriminate.
  - injection H as ->. split; reflexivity.
  - replace (2 * S i) with (S (S (2 * i))) by lia.
    replace (S (S (2 * i)) + 1) with (S (S (2 * i + 1))) by lia.
    rewrite expand_cons. simpl nth_error. apply IH, H.
Qed.

(** C5: for every byte sequence [k], [nibbleToByte k] (a total function: it
    has no error result) is twice as long as [k], holds only values in
    [0, 15], and at positions [2i] and [2i+1] holds the high nibble [b / 16]
    and then the low nibble [b mod 16] of the [i]-th byte [b] of [k]. *)
Theorem nibbleToByte_spec (k : list Z) :
  Forall is_byte k ->
  length (nibbleToByte k) = 2 * length k /\
  Forall is_nibble (nibbleToByte k) /\
  (forall i b, nth_error k i = Some b ->
     nth_error (nibbleToByte k) (2 * i) = Some (b / 16)%Z /\
     nth_error (nibbleToByte k) (2 * i + 1) = Some (b mod 16)%Z).
Proof.
  intros Hk. rewrite nibbleToByte_expand. split; [apply expand_length | ].
  split; [apply expand_nibbles, Hk | ]. intros i b. apply expand_nth.
Qed.

Lemma nibbleToByte_spec_witness :
  Forall is_byte [58; 171]%Z /\
  length (nibbleToByte [58; 171]%Z) = 4 /\
  Forall is_nibble (nibbleToByte [58; 171]%Z) /\
  nth_error (nibbleToByte [58; 171]%Z) 2 = Some 10%Z /\
  nth_error (nibbleToByte [58; 171]%Z) 3 = Some 11%Z.
Proof.
  assert (Hk : Forall is_byte [58; 171]%Z) by (repeat constructor; unfold is_byte; lia).
  destruct (nibbleToByte_spec [58; 171]%Z Hk) as (Hlen & Hnib & Hnth).
  destruct (Hnth 1 171%Z eq_refl) as [Hhi Hlo].
  split; [exact Hk | ]. split; [exact Hlen | ]. split; [exact Hnib | ].
  split; [exact Hhi | exact Hlo].
Defined.

(** ** CompactKeyDecoder *)

Lemma nibbleToByte_cons (b : Z) (k : list Z) :
  nibbleToByte (b :: k) = (b / 16)%Z :: (b mod 16)%Z :: nibbleToByte k.
Proof. now rewrite !nibbleToByte_expand. Qed.

(** Slicing the expansion of a nonempty key at 1 or 2 never panics. *)
Lemma sliceFrom_nibbleToByte (b : Z) (k : list Z) :
  sliceFrom (m := Result) (nibbleToByte (b :: k)) 2 = Ok (nibbleToByte k) /\
  sliceFrom (m := Result) (nibbleToByte (b :: k)) 1
  = Ok ((b mod 16)%Z :: nibbleToByte k).
Proof. rewrite nibbleToByte_cons. split; reflexivity. Qed.

(** What [decodeCompactKey] does with a nonempty first field, by the value of
    the switch expression [first[0] / 16]. *)
Lemma decodeCompactKey_nonempty (b : Z) (rest : list Z) (second : RawField) :
  decodeCompactKey [Bytes (b :: rest); second] =
  match (b / 16)%Z with
  | 0%Z => Ok (EXTENSION_NODE, [Bytes (nibbleToByte rest); second])
  | 1%Z => Ok (EXTENSION_NODE, [Bytes ((b mod 16)%Z :: nibbleToByte rest); second])
  | 2%Z => Ok (LEAF_NODE, [Bytes (nibbleToByte rest); second])
  | 3%Z => Ok (LEAF_NODE, [Bytes ((b mod 16)%Z :: nibbleToByte rest); second])
  | _ => Err UnknownHexPrefix
  end.
Proof.
  unfold decodeCompactKey.
  cbn [index nth_error assertBytes bind ret Result_Monad].
  destruct (sliceFrom_nibbleToByte b rest) as [-> ->].
  reflexivity.
Qed.

(** C4: for a 2-item node whose first field is the nonempty byte string
    [b :: rest], [decodeCompactKey] follows the hex-prefix table on the high
    nibble [b / 16]: 0 gives Extension with the expansion from offset 2,
    1 gives Extension from offset 1, 2 gives Leaf from offset 2, 3 gives Leaf
    from offset 1, and 4 to 15 fail with [UnknownHexPrefix].  Offset 2 leaves
    the expansion of [rest]; offset 1 leaves the low nibble of [b] before it. *)
Theorem decodeCompactKey_table (b : Z) (rest : list Z) (second : RawField) :
  let first := b :: rest in
  let node := [Bytes first; second] in
  ((b / 16 = 0)%Z ->
     decodeCompactKey node
     = Ok (EXTENSION_NODE, [Bytes (skipn 2 (nibbleToByte first)); second])) /\
  ((b / 16 = 1)%Z ->
     decodeCompactKey node
     = Ok (EXTENSION_NODE, [Bytes (skipn 1 (nibbleToByte first)); second])) /\
  ((b / 16 = 2)%Z ->
     decodeCompactKey node
     = Ok (LEAF_NODE, [Bytes (skipn 2 (nibbleToByte first)); second])) /\
  ((b / 16 = 3)%Z ->
     decodeCompactKey node
     = Ok (LEAF_NODE, [Bytes (skipn 1 (nibbleToByte first)); second])) /\
  ((4 <= b / 16 <= 15)%Z -> decodeCompactKey node = Err UnknownHexPrefix) /\
  skipn 2 (nibbleToByte first) = nibbleToByte rest /\
  skipn 1 (nibbleToByte first) = (b mod 16)%Z :: nibbleToByte rest.
Proof.
  intros first node. subst first node.
  rewrite decodeCompactKey_nonempty, nibbleToByte_cons.
  cbn [skipn].
  repeat split; intros H; try (rewrite H; reflexivity).
  destruct (b / 16)%Z as [|p|p]; try lia.
  do 4 (destruct p as [p|p|]; try lia; try reflexivity).
Qed.

Lemma decodeCompactKey_table_witness :
  decodeCompactKey [Bytes [0; 171]%Z; Bytes [7]%Z]
  = Ok (EXTENSION_NODE, [Bytes [10; 11]%Z; Bytes [7]%Z]) /\
  decodeCompactKey [Bytes [26; 188]%Z; Bytes [7]%Z]
  = Ok (EXTENSION_NODE, [Bytes [10; 11; 12]%Z; Bytes [7]%Z]) /\
  decodeCompactKey [Bytes [32; 171]%Z; Bytes [7]%Z]
  = Ok (LEAF_NODE, [Bytes [10; 11]%Z; Bytes [7]%Z]) /\
  decodeCompactKey [Bytes [58; 188]%Z; Bytes [7]%Z]
  = Ok (LEAF_NODE, [Bytes [10; 11; 12]%Z; Bytes [7]%Z]) /\
  decodeCompactKey [Bytes [64; 171]%Z; Bytes [7]%Z] = Err UnknownHexPrefix.
Proof.
  split; [exact (proj1 (decodeCompactKey_table 0 [171%Z] (Bytes [7%Z])) eq_refl) | ].
  split; [exact (proj1 (proj2 (decodeCompactKey_table 26 [188%Z] (Bytes [7%Z]))) eq_refl) | ].
  split; [exact (proj1 (proj2 (proj2 (decodeCompactKey_table 32 [171%Z] (Bytes [7%Z])))) eq_refl) | ].
  split; [exact (proj1 (proj2 (proj2 (proj2 (decodeCompactKey_table 58 [188%Z] (Bytes [7%Z]))))) eq_refl) | ].
  apply (proj1 (proj2 (proj2 (proj2 (proj2 (decodeCompactKey_table 64 [171%Z] (Bytes [7%Z]))))))).
  vm_compute. split; discriminate.
Defined.

(** ** Runs against the recording sink *)

Section Recorded.
Variable codec : Z.

Lemma unpackLeafNode_bytes (p v : list Z) (s : list Call) :
  unpackLeafNode (K := recorder) [Bytes p; Bytes v] codec s
  = (Ok tt, s ++ leafCalls p v).
Proof. unfold unpackLeafNode, leafCalls. go_index. f_equal. trace_eq. Qed.

(** An extension node with a byte-string child: the bytes become a link,
    whatever their number. *)
Lemma unpackExtensionNode_bytes (path childLink : list Z) (s : list Call) :
  unpackExtensionNode (K := recorder) [Bytes path; Bytes childLink] codec s
  = (Ok tt, s ++ [AssignKey "PartialPath"; AssignBytes path; AssignKey "Child";
                  AssignLink (keccak256ToCid codec childLink)]).
Proof. unfold unpackExtensionNode. go_index. f_equal. trace_eq. Qed.

Lemma unpackExtensionNode_inline (path p v : list Z) (s : list Call) :
  unpackExtensionNode (K := recorder) [Bytes path; Fields [Bytes p; Bytes v]] codec s
  = (Ok tt, s ++ [AssignKey "PartialPath"; AssignBytes path; AssignKey "Child"]
              ++ inlineLeafCalls p v).
Proof.
  unfold unpackExtensionNode. go_index. cbn [length Nat.eqb negb]. go_index.
  rewrite unpackLeafNode_bytes. go_index. f_equal.
  unfold inlineLeafCalls, leafCalls. trace_eq.
Qed.

Lemma unpackExtensionNode_count (path : list Z) (child : list RawField)
    (s : list Call) :
  length child <> 2 ->
  unpackExtensionNode (K := recorder) [Bytes path; Fields child] codec s
  = (Err (InvalidEmbeddedNode (length child)),
     s ++ [AssignKey "PartialPath"; AssignBytes path; AssignKey "Child"]).
Proof.
  intros H. unfold unpackExtensionNode. go_index.
  apply Nat.eqb_neq in H. rewrite H. cbn [negb]. go_index. f_equal. trace_eq.
Qed.

Section Branch.
Variable nodeFields : list RawField.

Lemma branch_child_resolved (i : nat) (f : RawField) (s : list Call) :
  nth_error nodeFields i = Some f ->
  resolvableChild f = true ->
  unpackBranchNode_child (K := recorder) nodeFields codec i s
  = (Ok tt, s ++ AssignKey ("Child" ++ decimal i)
              :: childValueCalls (fun p => p) codec f).
Proof.
  intros Hi Hf. unfold unpackBranchNode_child. go_step. unfold index.
  rewrite Hi. go_step.
  destruct f as [b|[|[p|?] [|[v|?] [|? ?]]]]; try discriminate Hf.
  - cbn [resolvableChild] in Hf. apply orb_true_iff in Hf.
    cbn [childValueCalls].
    destruct Hf as [H|H]; apply Nat.eqb_eq in H; rewrite H; go_step;
      cbn [Nat.eqb]; f_equal; trace_eq.
  - cbn [length Nat.eqb negb childValueCalls]. go_step.
    rewrite unpackLeafNode_bytes. go_step. f_equal.
    unfold inlineLeafCalls, leafCalls. trace_eq.
Qed.

Lemma branch_child_count (i : nat) (child : list RawField) (s : list Call) :
  nth_error nodeFields i = Some (Fields child) ->
  length child <> 2 ->
  unpackBranchNode_child (K := recorder) nodeFields codec i s
  = (Err (InvalidEmbeddedNode (length child)),
     s ++ [AssignKey ("Child" ++ decimal i)]).
Proof.
  intros Hi H. unfold unpackBranchNode_child. go_step. unfold index.
  rewrite Hi. go_step. apply Nat.eqb_neq in H. rewrite H. reflexivity.
Qed.

Lemma branch_child_length (i : nat) (b : list Z) (s : list Call) :
  nth_error nodeFields i = Some (Bytes b) ->
  length b <> 0 -> length b <> 32 ->
  unpackBranchNode_child (K := recorder) nodeFields codec i s
  = (Err (InvalidChildLength (length b)),
     s ++ [AssignKey ("Child" ++ decimal i)]).
Proof.
  intros Hi H0 H32. unfold unpackBranchNode_child. go_step. unfold index.
  rewrite Hi. go_step.
  remember (length b) as n eqn:Hn. clear Hn.
  do 33 (destruct n as [|n]; [try reflexivity; lia | ]). reflexivity.
Qed.
End Branch.
End Recorded.

Lemma skipn_nth_error {A : Type} (l : list A) (n : nat) (x : A) :
  nth_error l n = Some x -> skipn n l = x :: skipn (S n) l.
Proof.
  revert n. induction l as [|a l IH]; intros [|n] H; simpl in H; try discriminate.
  - now injection H as ->.
  - now apply IH.
Qed.

Lemma nth_error_below {A : Type} (l : list A) (n : nat) :
  n < length l -> exists x, nth_error l n = Some x.
Proof.
  intros H. destruct (nth_error l n) as [x|] eqn:E; [now exists x | ].
  apply nth_error_None in E. lia.
Qed.

Section BranchLoop.
Variable codec : Z.
Variable nodeFields : list RawField.

(** The loop over resolvable children makes the calls of each, in order. *)
Lemma forRange_resolved (count : nat) :
  forall (from : nat) (s : list Call),
    from + count <= length nodeFields ->
    forallb resolvableChild (firstn count (skipn from nodeFields)) = true ->
    forRange from count (unpackBranchNode_child (K := recorder) nodeFields codec) s
    = (Ok tt, s ++ childrenCalls (fun p => p) codec from
                     (firstn count (skipn from nodeFields))).
Proof.
  induction count as [|count IH]; intros from s Hlen Hok.
  - cbn. now rewrite app_nil_r.
  - destruct (nth_error_below nodeFields from ltac:(lia)) as [f Hf].
    rewrite (skipn_nth_error _ _ _ Hf) in Hok |- *.
    cbn [firstn forallb childrenCalls] in Hok |- *.
    apply andb_true_iff in Hok. destruct Hok as [Hf_ok Hrest].
    cbn [forRange]. go_step.
    rewrite (branch_child_resolved codec nodeFields from f s Hf Hf_ok).
    rewrite IH by (assumption || lia). f_equal. trace_eq.
Qed.

(** The loop stops at the first child whose step fails, after the calls of
    the children before it. *)
Lemma forRange_stops (e : Error) (tr : list Call) (k : nat) :
  forall (from count : nat) (s : list Call),
    k < count ->
    from + k < length nodeFields ->
    forallb resolvableChild (firstn k (skipn from nodeFields)) = true ->
    (forall s', unpackBranchNode_child (K := recorder) nodeFields codec (from + k) s'
                = (Err e, s' ++ tr)) ->
    forRange from count (unpackBranchNode_child (K := recorder) nodeFields codec) s
    = (Err e, s ++ childrenCalls (fun p => p) codec from
                     (firstn k (skipn from nodeFields)) ++ tr).
Proof.
  induction k as [|k IH]; intros from count s Hk Hlen Hok Hfail;
    destruct count as [|count]; try lia; cbn [forRange]; go_step.
  - rewrite Nat.add_0_r in Hfail. rewrite Hfail. reflexivity.
  - destruct (nth_error_below nodeFields from ltac:(lia)) as [f Hf].
    rewrite (skipn_nth_error _ _ _ Hf) in Hok |- *.
    cbn [firstn forallb childrenCalls] in Hok |- *.
    apply andb_true_iff in Hok. destruct Hok as [Hf_ok Hrest].
    rewrite (branch_child_resolved codec nodeFields from f s Hf Hf_ok).
    rewrite (IH (S from) count) by
      (try assumption; try lia;
       intros s'; replace (S from + k) with (from + S k) by lia; apply Hfail).
    f_equal. trace_eq.
Qed.

(** [unpackBranchNode] once its sixteen children are resolvable: the entry
    for "Value" is decided by the 17th field. *)
Lemma unpackBranchNode_resolved (s : list Call) :
  length nodeFields = 17 ->
  forallb resolvableChild (firstn 16 nodeFields) = true ->
  unpackBranchNode (K := recorder) nodeFields codec s
  = match nth_error nodeFields 16 with
    | Some (Bytes valBytes) =>
        (Ok tt, s ++ childrenCalls (fun p => p) codec 0 (firstn 16 nodeFields)
                  ++ [AssignKey "Value";
                      if length valBytes =? 0 then AssignNull
                      else AssignBytes valBytes])
    | Some (Fields _) =>
        (Err InvalidBranchValue,
         s ++ childrenCalls (fun p => p) codec 0 (firstn 16 nodeFields)
           ++ [AssignKey "Value"])
    | None => (Panic (IndexOutOfRange 16 17), s)
    end.
Proof.
  intros Hlen Hok. unfold unpackBranchNode.
  cbn [bind M_Monad].
  rewrite (forRange_resolved 16 0 s) by (rewrite ?Hlen; cbn [skipn]; auto).
  cbn [skipn]. go_step. unfold index.
  destruct (nth_error_below nodeFields 16 ltac:(lia)) as [f16 Hf]. rewrite Hf.
  destruct f16 as [valBytes|l]; go_step.
  - destruct (length valBytes =? 0); go_step; f_equal; trace_eq.
  - f_equal. trace_eq.
Qed.
End BranchLoop.

(** ** DecodeEntry *)

Section AnySink.
Context {K : Sink}.

Lemma DecodeTrieNodeBytes_parsed (parse : list Z -> Error + list RawField)
    (src : list Z) (nodeFields : list RawField) (codec : Z) :
  parse src = inr nodeFields ->
  DecodeTrieNodeBytes parse src codec = decodeNodeFields nodeFields codec.
Proof. intros H. unfold DecodeTrieNodeBytes. now rewrite H. Qed.

Lemma call_noPanic (c : Call) (s : sink) : noPanic (fst (call c s)).
Proof. unfold call. destruct (sink_call s c); exact I. Qed.

Lemma bind_noPanic {A B : Type} (c : M A) (k : A -> M B) (s : sink) :
  noPanic (fst (c s)) ->
  (forall a s1, c s = (Ok a, s1) -> noPanic (fst (k a s1))) ->
  noPanic (fst (bind c k s)).
Proof.
  intros Hc Hk. cbn [bind M_Monad].
  destruct (c s) as [[a|e|p] s1]; cbn in *; auto.
Qed.

Ltac calls_noPanic :=
  repeat (apply bind_noPanic; [apply call_noPanic | intros ? ? _]);
  try apply call_noPanic.

Lemma unpackLeafNode_noPanic (f0 f1 : RawField) (codec : Z) (s : sink) :
  noPanic (fst (unpackLeafNode [f0; f1] codec s)).
Proof.
  unfold unpackLeafNode. cbn [index nth_error].
  apply bind_noPanic; [exact I | intros a ? _].
  destruct a as [p|l]; [ | exact I].
  apply bind_noPanic; [exact I | intros a' ? _].
  destruct a' as [v|l]; [ | exact I].
  calls_noPanic.
Qed.

Lemma unpackExtensionNode_noPanic (path : list Z) (second : RawField)
    (codec : Z) (s : sink) :
  noPanic (fst (unpackExtensionNode [Bytes path; second] codec s)).
Proof.
  unfold unpackExtensionNode. cbn [index nth_error].
  apply bind_noPanic; [exact I | intros a ? _]. destruct a as [p|l]; [ | exact I].
  calls_noPanic.
  apply bind_noPanic; [exact I | intros a' ? _].
  destruct a' as [childLink|childLeaf]; [apply call_noPanic | ].
  destruct (negb (length childLeaf =? 2)) eqn:E; [exact I | ].
  apply negb_false_iff, Nat.eqb_eq in E.
  destruct childLeaf as [|c0 [|c1 [|? ?]]]; try discriminate E.
  calls_noPanic.
  apply bind_noPanic; [apply unpackLeafNode_noPanic | intros ? ? _].
  calls_noPanic.
Qed.

(** A 2-item node whose first field is a nonempty byte string is decoded
    without a panic, against any sink. *)
Lemma decodeNodeFields_noPanic (b : Z) (rest : list Z) (second : RawField)
    (codec : Z) (s : sink) :
  noPanic (fst (decodeNodeFields [Bytes (b :: rest); second] codec s)).
Proof.
  unfold decodeNodeFields. cbn [length].
  apply bind_noPanic; [apply call_noPanic | intros ? ? _].
  apply bind_noPanic; [ | intros ? ? _; apply call_noPanic].
  unfold liftR at 1. rewrite decodeCompactKey_nonempty.
  apply bind_noPanic.
  - cbn [fst]. destruct (b / 16)%Z as [|[[p|p|]|[p|p|]|]|p]; exact I.
  - intros [kind decoded] ? Hd. injection Hd as Hd _.
    destruct (b / 16)%Z as [|[[p|p|]|[p|p|]|]|p]; try discriminate Hd;
      injection Hd as <- <-; calls_noPanic;
      (apply bind_noPanic;
       [apply unpackExtensionNode_noPanic || apply unpackLeafNode_noPanic
       | intros ? ? _; apply call_noPanic]).
Qed.
End AnySink.

Section TopLevel.
Variable codec : Z.

Lemma decodeNodeFields_extension (b : Z) (rest : list Z) (second : RawField) :
  (b / 16 = 0 \/ b / 16 = 1)%Z ->
  decodeNodeFields (K := recorder) [Bytes (b :: rest); second] codec []
  = (unpackExtensionNode (K := recorder) [Bytes (compactPath b rest); second] codec ;;
     call Finish ;; call Finish)
      [BeginMap 1; AssignKey "Extension"; BeginMap 2].
Proof.
  intros H. unfold decodeNodeFields, compactPath. cbn [length]. go_step.
  rewrite decodeCompactKey_nonempty.
  destruct H as [H|H]; rewrite H; cbn [Z.even NodeKind_String app]; go_step;
    match goal with
    | |- context [unpackExtensionNode ?f ?c ?s] =>
        destruct (unpackExtensionNode (K := recorder) f c s) as [[[]|e|p] s']
    end; reflexivity.
Qed.

Lemma decodeNodeFields_leaf (b : Z) (rest : list Z) (second : RawField) :
  (b / 16 = 2 \/ b / 16 = 3)%Z ->
  decodeNodeFields (K := recorder) [Bytes (b :: rest); second] codec []
  = (unpackLeafNode (K := recorder) [Bytes (compactPath b rest); second] codec ;;
     call Finish ;; call Finish)
      [BeginMap 1; AssignKey "Leaf"; BeginMap 2].
Proof.
  intros H. unfold decodeNodeFields, compactPath. cbn [length]. go_step.
  rewrite decodeCompactKey_nonempty.
  destruct H as [H|H]; rewrite H; cbn [Z.even NodeKind_String app]; go_step;
    match goal with
    | |- context [unpackLeafNode ?f ?c ?s] =>
        destruct (unpackLeafNode (K := recorder) f c s) as [[[]|e|p] s']
    end; reflexivity.
Qed.

Lemma decodeNodeFields_branch (nodeFields : list RawField) :
  length nodeFields = 17 ->
  decodeNodeFields (K := recorder) nodeFields codec []
  = (unpackBranchNode (K := recorder) nodeFields codec ;; call Finish ;; call Finish)
      [BeginMap 1; AssignKey "Branch"; BeginMap 17].
Proof.
  intros H. unfold decodeNodeFields. rewrite H. go_step.
  cbn [NodeKind_String app].
  destruct (unpackBranchNode (K := recorder) nodeFields codec _) as [[[]|e|p] s'];
    reflexivity.
Qed.

(** A top-level leaf: its "PartialPath" entry is the de-compacted path. *)
Lemma decode_leaf (b : Z) (rest v : list Z) :
  (b / 16 = 2 \/ b / 16 = 3)%Z ->
  decodeNodeFields (K := recorder) [Bytes (b :: rest); Bytes v] codec []
  = (Ok tt, [BeginMap 1; AssignKey "Leaf"; BeginMap 2]
              ++ leafCalls (compactPath b rest) v ++ [Finish; Finish]).
Proof.
  intros H. rewrite decodeNodeFields_leaf by exact H. go_step.
  rewrite unpackLeafNode_bytes. go_step. reflexivity.
Qed.
End TopLevel.

(** * The claims *)

Section Claims.
Variable parse : list Z -> Error + list RawField.
Variable src : list Z.
Variable codec : Z.

(** C3: when the container parses to a number of items that is neither 2
    nor 17, decoding returns no error; the sink receives an opened and at
    once finished map, so the assembled node is the empty map. *)
Theorem decode_other_item_count (nodeFields : list RawField) :
  parse src = inr nodeFields ->
  length nodeFields <> 2 ->
  length nodeFields <> 17 ->
  run (DecodeTrieNodeBytes parse src codec) = (Ok tt, [BeginMap 1; Finish]) /\
  assemble (DecodeTrieNodeBytes parse src codec) = (Ok tt, Some (NMap [])).
Proof.
  intros Hp H2 H17. rewrite !(DecodeTrieNodeBytes_parsed _ _ _ _ Hp).
  unfold run, assemble, decodeNodeFields.
  remember (length nodeFields) as n eqn:Hn. clear Hn.
  do 18 (destruct n as [|n]; [first [lia | split; reflexivity] | ]).
  split; reflexivity.
Qed.

(** C10: a 2-item node whose first field is the empty byte string makes
    [decodeCompactKey] index that field at 0: the decoder panics with an
    index out of range (after the outer map was opened) and returns no
    error.  With a nonempty byte string as first field no panic occurs, so
    the 2-item nodes with a byte-string first field that decode without a
    panic are those whose first field is nonempty. *)
Theorem decode_empty_first_field (first : list Z) (second : RawField) :
  parse src = inr [Bytes first; second] ->
  (first = [] ->
     run (DecodeTrieNodeBytes parse src codec)
     = (Panic (IndexOutOfRange 0 0), [BeginMap 1])) /\
  (first <> [] -> noPanic (fst (run (DecodeTrieNodeBytes parse src codec)))).
Proof.
  intros Hp. rewrite (DecodeTrieNodeBytes_parsed _ _ _ _ Hp). split.
  - intros ->. reflexivity.
  - destruct first as [|b rest]; [congruence | intros _].
    apply (decodeNodeFields_noPanic (K := recorder)).
Qed.

(** C9 (the code departs from it): a 2-item node whose first field is a
    list is not answered with a returned type error.  The unchecked
    assertion [i[0].([]byte)] in [decodeCompactKey] panics, after the outer
    map was opened. *)
Theorem decode_list_first_field (l : list RawField) (second : RawField) :
  parse src = inr [Fields l; second] ->
  run (DecodeTrieNodeBytes parse src codec)
  = (Panic InterfaceConversion, [BeginMap 1]).
Proof.
  intros Hp. rewrite (DecodeTrieNodeBytes_parsed _ _ _ _ Hp). reflexivity.
Qed.
End Claims.

Lemma decode_other_item_count_witness :
  rlpDecodeBytes [195; 128; 128; 128]%Z = inr [Bytes []; Bytes []; Bytes []] /\
  run (DecodeTrieNodeBytes rlpDecodeBytes [195; 128; 128; 128]%Z 150)
  = (Ok tt, [BeginMap 1; Finish]) /\
  assemble (DecodeTrieNodeBytes rlpDecodeBytes [195; 128; 128; 128]%Z 150)
  = (Ok tt, Some (NMap [])).
Proof.
  split; [reflexivity | ].
  apply (decode_other_item_count rlpDecodeBytes [195; 128; 128; 128]%Z 150
           [Bytes []; Bytes []; Bytes []]);
    [reflexivity | cbn; lia | cbn; lia].
Defined.

Lemma decode_empty_first_field_witness :
  run (DecodeTrieNodeBytes rlpDecodeBytes [194; 128; 128]%Z 150)
  = (Panic (IndexOutOfRange 0 0), [BeginMap 1]) /\
  noPanic (fst (run (DecodeTrieNodeBytes rlpDecodeBytes [194; 32; 128]%Z 150))).
Proof.
  split.
  - apply (decode_empty_first_field rlpDecodeBytes [194; 128; 128]%Z 150 [] (Bytes []));
      reflexivity.
  - apply (decode_empty_first_field rlpDecodeBytes [194; 32; 128]%Z 150 [32%Z] (Bytes []));
      [reflexivity | discriminate].
Defined.

Lemma decode_list_first_field_witness :
  run (DecodeTrieNodeBytes rlpDecodeBytes [194; 192; 128]%Z 150)
  = (Panic InterfaceConversion, [BeginMap 1]).
Proof.
  apply (decode_list_first_field rlpDecodeBytes [194; 192; 128]%Z 150 [] (Bytes [])).
  reflexivity.
Defined.

(** ** Whole nodes against the recording sink *)

Lemma childrenCalls_split (path : list Z -> list Z) (codec : Z)
    (children : list RawField) :
  forall (from i : nat) (f : RawField),
    nth_error children i = Some f ->
    childrenCalls path codec from children
    = childrenCalls path codec from (firstn i children)
      ++ AssignKey ("Child" ++ decimal (from + i))
         :: childValueCalls path codec f
      ++ childrenCalls path codec (from + S i) (skipn (S i) children).
Proof.
  induction children as [|c children IH]; intros from [|i] f H;
    simpl in H; try discriminate.
  - injection H as ->. cbn [firstn skipn childrenCalls app].
    now rewrite Nat.add_0_r, Nat.add_1_r.
  - cbn [firstn skipn childrenCalls]. rewrite (IH (S from) i f H).
    replace (S from + i) with (from + S i) by lia.
    replace (S from + S i) with (from + S (S i)) by lia.
    cbn [app]. f_equal. now rewrite <- app_assoc.
Qed.

Section WholeNodes.
Variable codec : Z.

Lemma unpackLeafNode_error (f0 f1 : RawField) (s : list Call) :
  (forall p v, [f0; f1] <> [Bytes p; Bytes v]) ->
  unpackLeafNode (K := recorder) [f0; f1] codec s = (Err (leafFieldError f0), s).
Proof.
  intros H. unfold unpackLeafNode. go_index.
  destruct f0 as [p|l0]; [destruct f1 as [v|l1] | ]; try reflexivity.
  now elim (H p v).
Qed.

Lemma unpackExtensionNode_leaf_error (path : list Z) (f0 f1 : RawField)
    (s : list Call) :
  (forall p v, [f0; f1] <> [Bytes p; Bytes v]) ->
  fst (unpackExtensionNode (K := recorder) [Bytes path; Fields [f0; f1]] codec s)
  = Err (leafFieldError f0).
Proof.
  intros H. unfold unpackExtensionNode. go_index. cbn [length Nat.eqb negb].
  go_step. now rewrite unpackLeafNode_error.
Qed.

Section BranchNode.
Variable nodeFields : list RawField.
Hypothesis Hlen : length nodeFields = 17.

(** All sixteen children resolvable: the node is written in full when the
    17th field is a byte string, and refused at "Value" when it is not. *)
Lemma decode_branch_resolved :
  forallb resolvableChild (firstn 16 nodeFields) = true ->
  run (decodeNodeFields nodeFields codec)
  = match nth_error nodeFields 16 with
    | Some (Bytes valBytes) =>
        (Ok tt,
         branchOpening ++ childrenCalls (fun p => p) codec 0 (firstn 16 nodeFields)
           ++ [AssignKey "Value";
               if length valBytes =? 0 then AssignNull else AssignBytes valBytes;
               Finish; Finish])
    | Some (Fields _) =>
        (Err InvalidBranchValue,
         branchOpening ++ childrenCalls (fun p => p) codec 0 (firstn 16 nodeFields)
           ++ [AssignKey "Value"])
    | None => (Panic (IndexOutOfRange 16 17), branchOpening)
    end.
Proof.
  intros Hok. unfold run. rewrite decodeNodeFields_branch by exact Hlen.
  cbn [bind M_Monad].
  rewrite (unpackBranchNode_resolved codec nodeFields _ Hlen Hok).
  destruct (nth_error nodeFields 16) as [[valBytes|l]|]; try reflexivity.
  go_step. f_equal. unfold branchOpening. trace_eq.
Qed.

(** The children before child [i] resolvable and the step of child [i]
    failing with [e]: so does the node. *)
Lemma decode_branch_stops (e : Error) (tr : list Call) (i : nat) :
  i < 16 ->
  forallb resolvableChild (firstn i nodeFields) = true ->
  (forall s, unpackBranchNode_child (K := recorder) nodeFields codec i s
             = (Err e, s ++ tr)) ->
  run (decodeNodeFields nodeFields codec)
  = (Err e, branchOpening ++ childrenCalls (fun p => p) codec 0 (firstn i nodeFields)
              ++ tr).
Proof.
  intros Hi Hok Hfail. unfold run.
  rewrite decodeNodeFields_branch by exact Hlen.
  unfold unpackBranchNode. cbn [bind M_Monad].
  rewrite (forRange_stops codec nodeFields e tr i 0 16)
    by (try assumption; lia).
  reflexivity.
Qed.
End BranchNode.
End WholeNodes.

Section ChildClaims.
Variable parse : list Z -> Error + list RawField.
Variable src : list Z.
Variable codec : Z.

(** C2 (the code departs from it): in an Extension node a second field that
    is a byte string is turned into a link whatever its length.  The
    extension unpacker has no length switch, unlike the loop of the branch
    unpacker: an empty byte string does not give an empty child and a
    length other than 32 does not fail. *)
Theorem extension_bytes_child_is_link (b : Z) (rest childLink : list Z) :
  parse src = inr [Bytes (b :: rest); Bytes childLink] ->
  (b / 16 = 0 \/ b / 16 = 1)%Z ->
  run (DecodeTrieNodeBytes parse src codec)
  = (Ok tt,
     [BeginMap 1; AssignKey "Extension"; BeginMap 2;
      AssignKey "PartialPath"; AssignBytes (compactPath b rest);
      AssignKey "Child"; AssignLink (keccak256ToCid codec childLink);
      Finish; Finish]).
Proof.
  intros Hp Hb. rewrite (DecodeTrieNodeBytes_parsed _ _ _ _ Hp). unfold run.
  rewrite decodeNodeFields_extension by exact Hb. cbn [bind M_Monad].
  rewrite unpackExtensionNode_bytes. reflexivity.
Qed.

(** C6 (the code departs from it): the "PartialPath" entry of a top-level
    Leaf is the de-compacted path, but that of a Leaf embedded in an
    Extension or in a Branch is the first field of the embedded list as it
    stands, compact encoding and flag nibble included: the embedded list
    goes to the leaf unpacker without passing through [decodeCompactKey]. *)
Theorem embedded_leaf_path_is_raw (nodeFields : list RawField) :
  parse src = inr nodeFields ->
  (forall b rest v,
     nodeFields = [Bytes (b :: rest); Bytes v] ->
     (b / 16 = 2 \/ b / 16 = 3)%Z ->
     run (DecodeTrieNodeBytes parse src codec)
     = (Ok tt, [BeginMap 1; AssignKey "Leaf"; BeginMap 2]
                 ++ leafCalls (compactPath b rest) v ++ [Finish; Finish])) /\
  (forall b rest p v,
     nodeFields = [Bytes (b :: rest); Fields [Bytes p; Bytes v]] ->
     (b / 16 = 0 \/ b / 16 = 1)%Z ->
     run (DecodeTrieNodeBytes parse src codec)
     = (Ok tt,
        [BeginMap 1; AssignKey "Extension"; BeginMap 2;
         AssignKey "PartialPath"; AssignBytes (compactPath b rest);
         AssignKey "Child"; BeginMap 1; AssignKey "Leaf"; BeginMap 2]
          ++ leafCalls p v ++ [Finish; Finish; Finish; Finish])) /\
  (forall valBytes,
     length nodeFields = 17 ->
     forallb resolvableChild (firstn 16 nodeFields) = true ->
     nth_error nodeFields 16 = Some (Bytes valBytes) ->
     run (DecodeTrieNodeBytes parse src codec)
     = (Ok tt,
        [BeginMap 1; AssignKey "Branch"; BeginMap 17]
          ++ childrenCalls (fun p => p) codec 0 (firstn 16 nodeFields)
          ++ [AssignKey "Value";
              if length valBytes =? 0 then AssignNull else AssignBytes valBytes;
              Finish; Finish])).
Proof.
  intros Hp. rewrite (DecodeTrieNodeBytes_parsed _ _ _ _ Hp).
  split; [ | split].
  - intros b rest v -> Hb. now apply decode_leaf.
  - intros b rest p v -> Hb. unfold run.
    rewrite decodeNodeFields_extension by exact Hb. cbn [bind M_Monad].
    rewrite unpackExtensionNode_inline. reflexivity.
  - intros valBytes Hlen Hok H16.
    rewrite (decode_branch_resolved codec nodeFields Hlen Hok), H16.
    reflexivity.
Qed.
End ChildClaims.

Lemma extension_bytes_child_is_link_witness :
  run (DecodeTrieNodeBytes rlpDecodeBytes [199; 17; 133; 1; 2; 3; 4; 5]%Z 150)
  = (Ok tt,
     [BeginMap 1; AssignKey "Extension"; BeginMap 2;
      AssignKey "PartialPath"; AssignBytes [1%Z]; AssignKey "Child";
      AssignLink (keccak256ToCid 150 [1; 2; 3; 4; 5]%Z); Finish; Finish]) /\
  run (DecodeTrieNodeBytes rlpDecodeBytes [194; 17; 128]%Z 150)
  = (Ok tt,
     [BeginMap 1; AssignKey "Extension"; BeginMap 2;
      AssignKey "PartialPath"; AssignBytes [1%Z]; AssignKey "Child";
      AssignLink (keccak256ToCid 150 []); Finish; Finish]).
Proof.
  split.
  - apply (extension_bytes_child_is_link rlpDecodeBytes
             [199; 17; 133; 1; 2; 3; 4; 5]%Z 150 17 [] [1; 2; 3; 4; 5]%Z);
      [reflexivity | right; reflexivity].
  - apply (extension_bytes_child_is_link rlpDecodeBytes
             [194; 17; 128]%Z 150 17 [] []);
      [reflexivity | right; reflexivity].
Defined.

Lemma embedded_leaf_path_is_raw_witness :
  run (DecodeTrieNodeBytes rlpDecodeBytes [194; 58; 1]%Z 150)
  = (Ok tt, [BeginMap 1; AssignKey "Leaf"; BeginMap 2;
             AssignKey "PartialPath"; AssignBytes [10%Z];
             AssignKey "Value"; AssignBytes [1%Z]; Finish; Finish]) /\
  run (DecodeTrieNodeBytes rlpDecodeBytes [196; 17; 194; 58; 1]%Z 150)
  = (Ok tt, [BeginMap 1; AssignKey "Extension"; BeginMap 2;
             AssignKey "PartialPath"; AssignBytes [1%Z]; AssignKey "Child";
             BeginMap 1; AssignKey "Leaf"; BeginMap 2;
             AssignKey "PartialPath"; AssignBytes [58%Z];
             AssignKey "Value"; AssignBytes [1%Z];
             Finish; Finish; Finish; Finish]) /\
  firstn 13 (snd (run (DecodeTrieNodeBytes rlpDecodeBytes branchWithInlineLeaf 150)))
  = [BeginMap 1; AssignKey "Branch"; BeginMap 17;
     AssignKey "Child0"; BeginMap 1; AssignKey "Leaf"; BeginMap 2;
     AssignKey "PartialPath"; AssignBytes [58%Z];
     AssignKey "Value"; AssignBytes [1%Z]; Finish; Finish].
Proof.
  split; [ | split].
  - apply (proj1 (embedded_leaf_path_is_raw rlpDecodeBytes [194; 58; 1]%Z 150
                    _ eq_refl) 58%Z [] [1%Z]);
      [reflexivity | right; reflexivity].
  - apply (proj1 (proj2 (embedded_leaf_path_is_raw rlpDecodeBytes
                           [196; 17; 194; 58; 1]%Z 150 _ eq_refl))
             17%Z [] [58%Z] [1%Z]);
      [reflexivity | right; reflexivity].
  - rewrite (proj2 (proj2 (embedded_leaf_path_is_raw rlpDecodeBytes
                             branchWithInlineLeaf 150 _ eq_refl)) []);
      reflexivity.
Defined.

Section EmbeddedClaim.
Variable parse : list Z -> Error + list RawField.
Variable src : list Z.
Variable codec : Z.

(** C1, as amended: a child field that is a list is unpacked as an inline
    Leaf without a look at its compact-key flag nibble.  In an Extension
    node and in a Branch node alike, a child list whose number of items is
    not 2 (so every embedded 17-item Branch) fails with
    [InvalidEmbeddedNode]; a child list of two byte strings is accepted
    whatever its first byte, also when the flag nibble says Extension, and
    is written as an inline "Leaf" map carrying its second item as "Value";
    under an Extension, a 2-item child list with an item that is not a byte
    string fails with [MissingPathField] or [MissingValueField].  (For a
    Branch, the children before the one in question are taken to resolve,
    and for acceptance all sixteen and a byte-string 17th field.) *)
Theorem embedded_child_unpacked_as_leaf (nodeFields : list RawField) :
  parse src = inr nodeFields ->
  let result := run (DecodeTrieNodeBytes parse src codec) in
  (forall b rest child,
     nodeFields = [Bytes (b :: rest); Fields child] ->
     (b / 16 = 0 \/ b / 16 = 1)%Z ->
     (length child <> 2 ->
      fst result = Err (InvalidEmbeddedNode (length child))) /\
     (forall p v, child = [Bytes p; Bytes v] ->
        fst result = Ok tt /\
        exists pp,
          snd result
          = [BeginMap 1; AssignKey "Extension"; BeginMap 2;
             AssignKey "PartialPath"; AssignBytes (compactPath b rest);
             AssignKey "Child"] ++ inlineLeafCalls pp v ++ [Finish; Finish]) /\
     (forall f0 f1, child = [f0; f1] ->
        (forall p v, child <> [Bytes p; Bytes v]) ->
        fst result = Err (leafFieldError f0))) /\
  (forall i child,
     length nodeFields = 17 ->
     i < 16 ->
     nth_error nodeFields i = Some (Fields child) ->
     (length child <> 2 ->
      forallb resolvableChild (firstn i nodeFields) = true ->
      fst result = Err (InvalidEmbeddedNode (length child))) /\
     (forall p v valBytes, child = [Bytes p; Bytes v] ->
        forallb resolvableChild (firstn 16 nodeFields) = true ->
        nth_error nodeFields 16 = Some (Bytes valBytes) ->
        fst result = Ok tt /\
        exists before pp after,
          snd result
          = before ++ AssignKey ("Child" ++ decimal i) :: inlineLeafCalls pp v
              ++ after)).
Proof.
  intros Hp result. subst result.
  rewrite (DecodeTrieNodeBytes_parsed _ _ _ _ Hp). split.
  - intros b rest child -> Hb. unfold run.
    rewrite decodeNodeFields_extension by exact Hb. cbn [bind M_Monad].
    split; [ | split].
    + intros Hn. now rewrite unpackExtensionNode_count.
    + intros p v ->. rewrite unpackExtensionNode_inline.
      split; [reflexivity | exists p; reflexivity].
    + intros f0 f1 -> Hnot.
      pose proof (unpackExtensionNode_leaf_error codec (compactPath b rest) f0 f1
                    [BeginMap 1; AssignKey "Extension"; BeginMap 2] Hnot) as E.
      destruct (unpackExtensionNode _ _ _) as [[[]|e|q] s']; cbn [fst] in E;
        try discriminate E.
      exact E.
  - intros i child Hlen Hi Hnth. split.
    + intros Hn Hok.
      rewrite (decode_branch_stops codec nodeFields Hlen
                 (InvalidEmbeddedNode (length child))
                 [AssignKey ("Child" ++ decimal i)] i Hi Hok);
        [reflexivity | ].
      intros s. now apply branch_child_count.
    + intros p v valBytes -> Hok H16.
      rewrite (decode_branch_resolved codec nodeFields Hlen Hok), H16.
      split; [reflexivity | ].
      assert (Hi' : nth_error (firstn 16 nodeFields) i
                    = Some (Fields [Bytes p; Bytes v])).
      { rewrite nth_error_firstn. apply Nat.ltb_lt in Hi. now rewrite Hi. }
      rewrite (childrenCalls_split _ codec _ 0 i _ Hi'). cbn [snd childValueCalls Nat.add].
      exists ([BeginMap 1; AssignKey "Branch"; BeginMap 17]
                ++ childrenCalls (fun q => q) codec 0 (firstn i (firstn 16 nodeFields))),
        p,
        (childrenCalls (fun q => q) codec (S i) (skipn (S i) (firstn 16 nodeFields))
           ++ [AssignKey "Value";
               if length valBytes =? 0 then AssignNull else AssignBytes valBytes;
               Finish; Finish]).
      trace_eq.
Qed.
End EmbeddedClaim.

(** C1 fails as stated: an embedded 2-item list flagged as an Extension is
    accepted and written as an inline Leaf, under an Extension and under a
    Branch. *)
Lemma embedded_extension_child_accepted :
  decodeCompactKey [Bytes [17%Z]; Bytes [1%Z]]
  = Ok (EXTENSION_NODE, [Bytes [1%Z]; Bytes [1%Z]]) /\
  assemble (DecodeTrieNodeBytes rlpDecodeBytes extensionWithInlineExtension 150)
  = (Ok tt,
     Some (NMap [("Extension",
                  NMap [("PartialPath", NBytes [1%Z]);
                        ("Child",
                         NMap [("Leaf", NMap [("PartialPath", NBytes [17%Z]);
                                              ("Value", NBytes [1%Z])])])])])) /\
  fst (run (DecodeTrieNodeBytes rlpDecodeBytes branchWithInlineExtension 150))
  = Ok tt /\
  ~ (exists n,
       fst (run (DecodeTrieNodeBytes rlpDecodeBytes extensionWithInlineExtension 150))
       = Err (InvalidEmbeddedNode n)).
Proof.
  split; [reflexivity | ]. split; [reflexivity | ]. split; [reflexivity | ].
  intros [n H]. vm_compute in H. discriminate H.
Qed.

Lemma embedded_child_unpacked_as_leaf_witness :
  fst (run (DecodeTrieNodeBytes rlpDecodeBytes extensionWithInlineExtension 150))
  = Ok tt /\
  fst (run (DecodeTrieNodeBytes rlpDecodeBytes [197; 17; 195; 17; 1; 2]%Z 150))
  = Err (InvalidEmbeddedNode 3) /\
  fst (run (DecodeTrieNodeBytes rlpDecodeBytes [196; 17; 194; 192; 1]%Z 150))
  = Err MissingPathField /\
  fst (run (DecodeTrieNodeBytes rlpDecodeBytes branchWithEmptyListChild 150))
  = Err (InvalidEmbeddedNode 0) /\
  fst (run (DecodeTrieNodeBytes rlpDecodeBytes branchWithInlineExtension 150))
  = Ok tt.
Proof.
  split; [ | split; [ | split; [ | split]]].
  - destruct (proj1 (embedded_child_unpacked_as_leaf rlpDecodeBytes
                       extensionWithInlineExtension 150 _ eq_refl)
                17%Z [] [Bytes [17%Z]; Bytes [1%Z]] eq_refl (or_intror eq_refl))
      as (_ & Hok & _).
    exact (proj1 (Hok [17%Z] [1%Z] eq_refl)).
  - destruct (proj1 (embedded_child_unpacked_as_leaf rlpDecodeBytes
                       [197; 17; 195; 17; 1; 2]%Z 150 _ eq_refl)
                17%Z [] [Bytes [17%Z]; Bytes [1%Z]; Bytes [2%Z]] eq_refl
                (or_intror eq_refl))
      as (Hcount & _).
    apply Hcount. cbn. lia.
  - destruct (proj1 (embedded_child_unpacked_as_leaf rlpDecodeBytes
                       [196; 17; 194; 192; 1]%Z 150 _ eq_refl)
                17%Z [] [Fields []; Bytes [1%Z]] eq_refl (or_intror eq_refl))
      as (_ & _ & Hfield).
    apply (Hfield (Fields []) (Bytes [1%Z]) eq_refl). intros p v. discriminate.
  - destruct (proj2 (embedded_child_unpacked_as_leaf rlpDecodeBytes
                       branchWithEmptyListChild 150 _ eq_refl)
                3 [] eq_refl ltac:(lia) eq_refl)
      as (Hcount & _).
    apply Hcount; [cbn; lia | reflexivity].
  - destruct (proj2 (embedded_child_unpacked_as_leaf rlpDecodeBytes
                       branchWithInlineExtension 150 _ eq_refl)
                0 [Bytes [17%Z]; Bytes [1%Z]] eq_refl ltac:(lia) eq_refl)
      as (_ & Hok).
    exact (proj1 (Hok [17%Z] [1%Z] [] eq_refl eq_refl eq_refl)).
Defined.

Section BranchClaims.
Variable parse : list Z -> Error + list RawField.
Variable src : list Z.
Variable codec : Z.

(** C7: a 17-field node whose field 5 is a 32-byte hash [H] and whose other
    sixteen fields are empty byte strings decodes to a Branch whose Child5
    is the link [keccak256ToCid codec H], whose other children are null and
    whose Value is null: the calls in order, and the node they assemble. *)
Theorem branch_scenario_A (H : list Z) :
  parse src = inr (repeat (Bytes []) 5 ++ Bytes H :: repeat (Bytes []) 11) ->
  length H = 32 ->
  run (DecodeTrieNodeBytes parse src codec)
  = (Ok tt,
     [BeginMap 1; AssignKey "Branch"; BeginMap 17;
      AssignKey "Child0"; AssignNull; AssignKey "Child1"; AssignNull;
      AssignKey "Child2"; AssignNull; AssignKey "Child3"; AssignNull;
      AssignKey "Child4"; AssignNull;
      AssignKey "Child5"; AssignLink (keccak256ToCid codec H);
      AssignKey "Child6"; AssignNull; AssignKey "Child7"; AssignNull;
      AssignKey "Child8"; AssignNull; AssignKey "Child9"; AssignNull;
      AssignKey "Child10"; AssignNull; AssignKey "Child11"; AssignNull;
      AssignKey "Child12"; AssignNull; AssignKey "Child13"; AssignNull;
      AssignKey "Child14"; AssignNull; AssignKey "Child15"; AssignNull;
      AssignKey "Value"; AssignNull; Finish; Finish]) /\
  assemble (DecodeTrieNodeBytes parse src codec)
  = (Ok tt,
     Some (NMap [("Branch",
                  NMap [("Child0", NNull); ("Child1", NNull); ("Child2", NNull);
                        ("Child3", NNull); ("Child4", NNull);
                        ("Child5", NLink (keccak256ToCid codec H));
                        ("Child6", NNull); ("Child7", NNull); ("Child8", NNull);
                        ("Child9", NNull); ("Child10", NNull); ("Child11", NNull);
                        ("Child12", NNull); ("Child13", NNull); ("Child14", NNull);
                        ("Child15", NNull); ("Value", NNull)])])).
Proof.
  intros Hp Hlen. rewrite !(DecodeTrieNodeBytes_parsed _ _ _ _ Hp).
  do 32 (destruct H as [|? H];
         [discriminate Hlen | simpl in Hlen; apply Nat.succ_inj in Hlen]).
  destruct H; [ | discriminate Hlen].
  split; reflexivity.
Qed.

End BranchClaims.

Lemma branch_scenario_A_witness :
  snd (assemble (DecodeTrieNodeBytes rlpDecodeBytes scenarioA_src 150))
  = Some (NMap [("Branch",
                 NMap [("Child0", NNull); ("Child1", NNull); ("Child2", NNull);
                       ("Child3", NNull); ("Child4", NNull);
                       ("Child5", NLink (keccak256ToCid 150 scenarioA_hash));
                       ("Child6", NNull); ("Child7", NNull); ("Child8", NNull);
                       ("Child9", NNull); ("Child10", NNull); ("Child11", NNull);
                       ("Child12", NNull); ("Child13", NNull); ("Child14", NNull);
                       ("Child15", NNull); ("Value", NNull)])]).
Proof.
  rewrite (proj2 (branch_scenario_A rlpDecodeBytes scenarioA_src 150 scenarioA_hash
                    eq_refl eq_refl)).
  reflexivity.
Defined.



(** * Further properties of the decoder *)

(** ** Nibbles *)

Lemma expand_app (a b : list Z) : expand (a ++ b) = expand a ++ expand b.
Proof. unfold expand. apply flat_map_app. Qed.

Lemma packNibbles_expand (k : list Z) : packNibbles (expand k) = k.
Proof.
  induction k as [|b k IH]; [reflexivity | ].
  rewrite expand_cons. cbn [packNibbles]. rewrite IH. f_equal.
  symmetry. apply Z.div_mod. discriminate.
Qed.

(** X1: the expansion into nibbles loses nothing.  Packing the nibbles back
    two by two ([16 * high + low]) gives the bytes expanded, so two byte
    strings with the same expansion are the same. *)
Theorem nibbleToByte_round_trip :
  (forall k, packNibbles (nibbleToByte k) = k) /\
  (forall k1 k2, nibbleToByte k1 = nibbleToByte k2 -> k1 = k2).
Proof.
  assert (H : forall k, packNibbles (nibbleToByte k) = k)
    by (intros k; rewrite nibbleToByte_expand; apply packNibbles_expand).
  split; [exact H | ].
  intros k1 k2 E. rewrite <- (H k1), <- (H k2), E. reflexivity.
Qed.

(** X2: the expansion of a concatenation is the concatenation of the
    expansions: the loop of [nibbleToByte] treats every byte on its own. *)
Theorem nibbleToByte_app (a b : list Z) :
  nibbleToByte (a ++ b) = nibbleToByte a ++ nibbleToByte b.
Proof. rewrite !nibbleToByte_expand. apply expand_app. Qed.

(** ** Compact keys *)

Lemma nibbleToByte_nibbles (k : list Z) :
  Forall is_byte k -> Forall is_nibble (nibbleToByte k).
Proof. rewrite nibbleToByte_expand. apply expand_nibbles. Qed.

Lemma nibbleToByte_length (k : list Z) : length (nibbleToByte k) = 2 * length k.
Proof. rewrite nibbleToByte_expand. apply expand_length. Qed.

(** X3: for a first field of bytes that starts with a flag nibble 0 to 3,
    [decodeCompactKey] returns the second field untouched beside a path that
    holds only nibbles and has one nibble less than the expansion when the
    flag is odd, two less when it is even: the parity of the path length is
    the parity of the flag. *)
Theorem decodeCompactKey_path (b : Z) (rest : list Z) (second : RawField) :
  Forall is_byte (b :: rest) ->
  (0 <= b / 16 <= 3)%Z ->
  exists kind path,
    decodeCompactKey [Bytes (b :: rest); second] = Ok (kind, [Bytes path; second]) /\
    Forall is_nibble path /\
    length path
    = 2 * length (b :: rest) - (if Z.odd (b / 16) then 1 else 2) /\
    Nat.odd (length path) = Z.odd (b / 16).
Proof.
  intros Hbytes Hflag. inversion Hbytes as [|? ? Hb Hrest]; subst.
  pose proof (nibbleToByte_nibbles rest Hrest) as Hn.
  destruct (byte_nibbles b Hb) as [_ Hlo].
  assert (Heven : Nat.odd (2 * length rest) = false).
  { rewrite Nat.odd_mul. reflexivity. }
  assert (Hodd : Nat.odd (S (2 * length rest)) = true).
  { rewrite Nat.odd_succ. rewrite Nat.even_mul. reflexivity. }
  rewrite decodeCompactKey_nonempty.
  destruct (b / 16)%Z as [|[[p|p|]|[p|p|]|]|p]; try lia;
    eexists _, _; (split; [reflexivity | ]);
    cbn [Z.odd length]; rewrite ?nibbleToByte_length;
    repeat split; auto; lia.
Qed.

Lemma decodeCompactKey_path_witness :
  exists kind path,
    decodeCompactKey [Bytes [58; 188]%Z; Bytes [7%Z]]
    = Ok (kind, [Bytes path; Bytes [7%Z]]) /\
    Forall is_nibble path /\ length path = 3 /\ Nat.odd (length path) = true.
Proof.
  apply (decodeCompactKey_path 58 [188%Z] (Bytes [7%Z])).
  - repeat constructor; unfold is_byte; lia.
  - vm_compute. split; discriminate.
Defined.

(** X4: with an even flag (0 or 2) the low nibble of the first byte is
    padding that [decodeCompactKey] never looks at: two first bytes with the
    same even high nibble give the same result. *)
Theorem decodeCompactKey_ignores_padding (b b' : Z) (rest : list Z)
    (second : RawField) :
  (b / 16 = b' / 16)%Z ->
  Z.even (b / 16) = true ->
  decodeCompactKey [Bytes (b :: rest); second]
  = decodeCompactKey [Bytes (b' :: rest); second].
Proof.
  intros Hhi Heven. rewrite !decodeCompactKey_nonempty. rewrite Hhi in Heven |- *.
  destruct (b' / 16)%Z as [|[[p|p|]|[p|p|]|]|p]; try reflexivity;
    discriminate Heven.
Qed.

Lemma decodeCompactKey_ignores_padding_witness :
  decodeCompactKey [Bytes [32; 171]%Z; Bytes [7%Z]]
  = decodeCompactKey [Bytes [47; 171]%Z; Bytes [7%Z]].
Proof.
  apply (decodeCompactKey_ignores_padding 32 47 [171%Z] (Bytes [7%Z])); reflexivity.
Defined.

(** ** Any sink sees the replay of the recorded calls *)

Lemma feed_app {K : Sink} (s : sink) (a b : list Call) :
  feed s (a ++ b)
  = match feed s a with
    | (Some err, s') => (Some err, s')
    | (None, s') => feed s' b
    end.
Proof.
  revert s. induction a as [|c a IH]; intro s; cbn [feed app]; [reflexivity | ].
  destruct (sink_call s c) as [err|s']; [reflexivity | apply IH].
Qed.

Lemma feed_recorder (s tr : list Call) : feed (K := recorder) s tr = (None, s ++ tr).
Proof.
  revert s. induction tr as [|c tr IH]; intro s; cbn [feed].
  - now rewrite app_nil_r.
  - cbn [sink_call recorder]. rewrite IH, <- app_assoc. reflexivity.
Qed.

Lemma Replays_pure {A : Type} (r : Result A) : Replays (fun K => liftR r).
Proof. intros K s. reflexivity. Qed.

Lemma Replays_ret {A : Type} (a : A) : Replays (fun K => ret a).
Proof. intros K s. reflexivity. Qed.

Lemma Replays_throw {A : Type} (e : Error) : Replays (fun K => throw (A := A) e).
Proof. intros K s. reflexivity. Qed.

Lemma Replays_panic {A : Type} (p : PanicKind) : Replays (fun K => panic (A := A) p).
Proof. intros K s. reflexivity. Qed.

Lemma Replays_call (c : Call) : Replays (fun K => call c).
Proof.
  intros K s. unfold replay, call. cbn [sink_call recorder snd fst feed app].
  destruct (sink_call s c); reflexivity.
Qed.

Lemma Replays_bind {A B : Type} (c : forall K : Sink, @M K A)
    (k : A -> forall K : Sink, @M K B) :
  Replays c ->
  (forall a, Replays (k a)) ->
  Replays (fun K => bind (c K) (fun a => k a K)).
Proof.
  intros Hc Hk K s. cbn [bind M_Monad]. rewrite (Hc K s).
  destruct (c recorder []) as [r tr]. unfold replay at 1. cbn [fst snd].
  destruct r as [a|e|p].
  - rewrite (Hk a recorder tr). unfold replay at 2.
    rewrite feed_recorder. unfold replay. cbn [fst snd]. rewrite feed_app.
    destruct (feed s tr) as [[err|] s']; [reflexivity | ].
    rewrite (Hk a K s'). reflexivity.
  - unfold replay. cbn [fst snd]. destruct (feed s tr) as [[err|] s']; reflexivity.
  - unfold replay. cbn [fst snd]. destruct (feed s tr) as [[err|] s']; reflexivity.
Qed.

Lemma Replays_index {A : Type} (l : list A) (i : nat) :
  Replays (fun K => index l i).
Proof. unfold index. destruct (nth_error l i); [apply Replays_ret | apply Replays_panic]. Qed.

Lemma Replays_forRange (body : nat -> forall K : Sink, @M K unit) (count : nat) :
  (forall i, Replays (body i)) ->
  forall from, Replays (fun K => forRange from count (fun i => body i K)).
Proof.
  intros Hbody. induction count as [|count IH]; intro from; cbn [forRange].
  - apply Replays_ret.
  - apply (Replays_bind (body from)
             (fun _ K => forRange (S from) count (fun i => body i K)));
      [apply Hbody | intros _; apply IH].
Qed.

Ltac replays :=
  repeat first
    [ apply Replays_call | apply Replays_ret | apply Replays_throw
    | apply Replays_panic | apply Replays_index | apply Replays_pure
    | match goal with
      | |- Replays (fun K => bind (@?c K) (fun a => @?k a K)) =>
          apply (Replays_bind c k); [ | intro ]
      end ].

Lemma Replays_unpackLeafNode (nodeFields : list RawField) (codec : Z) :
  Replays (fun K => unpackLeafNode nodeFields codec).
Proof.
  unfold unpackLeafNode. replays.
  destruct a as [partialPath|l]; replays.
  destruct a as [valBytes|l]; replays.
Qed.

Lemma Replays_unpackExtensionNode (nodeFields : list RawField) (codec : Z) :
  Replays (fun K => unpackExtensionNode nodeFields codec).
Proof.
  unfold unpackExtensionNode. replays.
  destruct a as [partialPath|l]; replays.
  destruct a2 as [childLink|childLeaf]; replays.
  destruct (negb (length childLeaf =? 2)); replays.
  apply Replays_unpackLeafNode.
Qed.

Lemma Replays_unpackBranchNode_child (nodeFields : list RawField) (codec : Z)
    (i : nat) :
  Replays (fun K => unpackBranchNode_child nodeFields codec i).
Proof.
  unfold unpackBranchNode_child. replays.
  destruct a0 as [childLink|childLeaf].
  - remember (length childLink) as n eqn:Hn. clear Hn.
    do 33 (destruct n as [|n]; [replays | ]). replays.
  - destruct (negb (length childLeaf =? 2)); replays.
    apply Replays_unpackLeafNode.
Qed.

Lemma Replays_unpackBranchNode (nodeFields : list RawField) (codec : Z) :
  Replays (fun K => unpackBranchNode nodeFields codec).
Proof.
  unfold unpackBranchNode.
  apply (Replays_bind
           (fun K => forRange 0 16 (unpackBranchNode_child nodeFields codec))).
  - apply (Replays_forRange
             (fun i K => unpackBranchNode_child nodeFields codec i)).
    intro i. apply Replays_unpackBranchNode_child.
  - intros _. replays. destruct a0 as [valBytes|l]; replays.
    destruct (length valBytes =? 0); replays.
Qed.

Lemma Replays_decodeNodeFields (nodeFields : list RawField) (codec : Z) :
  Replays (fun K => decodeNodeFields nodeFields codec).
Proof.
  unfold decodeNodeFields. replays.
  remember (length nodeFields) as n eqn:Hn. clear Hn.
  assert (Hret : Replays (fun K : Sink => ret (m := @M K) tt)) by apply Replays_ret.
  assert (Hbranch :
            Replays (fun K : Sink =>
                       call (AssignKey (NodeKind_String BRANCH_NODE)) ;;
                       call (BeginMap 17) ;;
                       unpackBranchNode nodeFields codec ;;
                       call Finish)).
  { replays. apply Replays_unpackBranchNode. }
  destruct n as [|[|[|n]]]; try exact Hret.
  - replays. destruct a0 as [nodeKind decoded].
    destruct nodeKind; replays;
      [apply Replays_unpackExtensionNode | apply Replays_unpackLeafNode].
  - do 14 (destruct n as [|n]; [exact Hret | ]).
    destruct n as [|n]; [exact Hbranch | exact Hret].
Qed.

(** X5: the decoder treats every sink alike.  Against any sink, from any
    state of it, [DecodeTrieNodeBytes] and [DecodeTrieNode] hand over the
    calls of the recorded run in order, up to the first call the sink
    refuses, whose error they return; when no call is refused they return
    what the recorded run returned. *)
Theorem decoder_replays_recorded_run {K : Sink}
    (parse : list Z -> Error + list RawField) (codec : Z) (s : sink) :
  (forall src,
     DecodeTrieNodeBytes parse src codec s
     = replay (run (DecodeTrieNodeBytes parse src codec)) s) /\
  (forall input,
     DecodeTrieNode parse input codec s
     = replay (run (DecodeTrieNode parse input codec)) s).
Proof.
  assert (H : forall src,
             DecodeTrieNodeBytes parse src codec s
             = replay (run (DecodeTrieNodeBytes parse src codec)) s).
  { intros src. unfold run, DecodeTrieNodeBytes.
    destruct (parse src) as [err|nodeFields]; [reflexivity | ].
    apply (Replays_decodeNodeFields nodeFields codec K s). }
  split; [exact H | ].
  intros input. unfold run, DecodeTrieNode.
  destruct (reader_Bytes input) as [src|]; [apply H | ].
  destruct (reader_ReadAll input) as [err|src]; [reflexivity | apply H].
Qed.

(** ** What the sink is handed *)

Section Emitting.
Variable P : Call -> Prop.

Lemma Emits_silent {A : Type} (r : Result A) : Emits P (fun s => (r, s)).
Proof. intros s. exists []. cbn [snd]. now rewrite app_nil_r. Qed.

Lemma Emits_call (c : Call) : P c -> Emits P (call (K := recorder) c).
Proof. intros Hc s. exists [c]. split; [reflexivity | now constructor]. Qed.

Lemma Emits_bind {A B : Type} (c : @M recorder A) (k : A -> @M recorder B) :
  Emits P c -> (forall a, Emits P (k a)) -> Emits P (bind c k).
Proof.
  intros Hc Hk s. cbn [bind M_Monad]. destruct (Hc s) as (tr & E & Htr).
  destruct (c s) as [[a|e|p] s']; cbn [snd] in E |- *; subst s'.
  - destruct (Hk a (s ++ tr)) as (tr' & E' & Htr').
    exists (tr ++ tr'). rewrite E', app_assoc. split; [reflexivity | ].
    apply Forall_app. now split.
  - now exists tr.
  - now exists tr.
Qed.

Lemma Emits_index {A : Type} (l : list A) (i : nat) :
  Emits P (index (m := @M recorder) l i).
Proof. unfold index. destruct (nth_error l i); apply Emits_silent. Qed.

Lemma Emits_forRange (body : nat -> @M recorder unit) (count : nat) :
  (forall i, Emits P (body i)) ->
  forall from, Emits P (forRange from count body).
Proof.
  intros Hbody. induction count as [|count IH]; intro from; cbn [forRange].
  - apply Emits_silent.
  - apply Emits_bind; [apply Hbody | intros _; apply IH].
Qed.
End Emitting.

Ltac emits :=
  repeat match goal with
    | |- Emits _ (index _ _) => apply Emits_index
    | |- Emits _ (call _) => apply Emits_call; exact I
    | |- Emits _ (ret _) => apply Emits_silent
    | |- Emits _ (throw _) => apply Emits_silent
    | |- Emits _ (panic _) => apply Emits_silent
    | |- Emits _ (liftR _) => apply Emits_silent
    | |- Emits _ (bind _ _) => apply Emits_bind; [ | intro ]
    end.

Section EmittedLinks.
Variable codec : Z.

Lemma Emits_link (h : list Z) :
  Emits (linkFor codec) (call (K := recorder) (AssignLink (keccak256ToCid codec h))).
Proof. apply Emits_call. now exists h. Qed.

Lemma Emits_unpackLeafNode (nodeFields : list RawField) :
  Emits (linkFor codec) (unpackLeafNode nodeFields codec).
Proof.
  unfold unpackLeafNode. emits.
  destruct a as [partialPath|l]; emits.
  destruct a as [valBytes|l]; emits.
Qed.

Lemma Emits_unpackExtensionNode (nodeFields : list RawField) :
  Emits (linkFor codec) (unpackExtensionNode nodeFields codec).
Proof.
  unfold unpackExtensionNode. emits.
  destruct a as [partialPath|l]; emits.
  destruct a2 as [childLink|childLeaf]; [apply Emits_link | ].
  destruct (negb (length childLeaf =? 2)); emits.
  apply Emits_unpackLeafNode.
Qed.

Lemma Emits_unpackBranchNode (nodeFields : list RawField) :
  Emits (linkFor codec) (unpackBranchNode nodeFields codec).
Proof.
  unfold unpackBranchNode. apply Emits_bind.
  - apply Emits_forRange. intro i. unfold unpackBranchNode_child. emits.
    destruct a0 as [childLink|childLeaf].
    + remember (length childLink) as n eqn:Hn. clear Hn.
      do 33 (destruct n as [|n]; [first [apply Emits_link | emits] | ]). emits.
    + destruct (negb (length childLeaf =? 2)); emits.
      apply Emits_unpackLeafNode.
  - intros _. emits. destruct a0 as [valBytes|l]; emits.
    destruct (length valBytes =? 0); emits.
Qed.

(** A recorded run of [decodeNodeFields] starts by opening the outer map. *)
Lemma decodeNodeFields_opens (nodeFields : list RawField) :
  exists tr,
    snd (run (decodeNodeFields nodeFields codec)) = BeginMap 1 :: tr /\
    Forall (linkFor codec) tr.
Proof.
  unfold run, decodeNodeFields.
  match goal with
  | |- context [bind (call (BeginMap 1)) ?k] =>
      assert (H : Emits (linkFor codec) (k tt))
  end.
  { cbv beta. emits.
    remember (length nodeFields) as n eqn:Hn. clear Hn.
    assert (Hret : Emits (linkFor codec) (ret (m := @M recorder) tt))
      by apply Emits_silent.
    destruct n as [|[|[|n]]]; try exact Hret.
    - emits. destruct a as [nodeKind decoded].
      destruct nodeKind; emits;
        [apply Emits_unpackExtensionNode | apply Emits_unpackLeafNode].
    - do 14 (destruct n as [|n]; [exact Hret | ]).
      destruct n as [|n]; [ | exact Hret].
      emits. apply Emits_unpackBranchNode. }
  cbn [bind M_Monad]. go_step. cbn [app].
  destruct (H [BeginMap 1]) as (tr & E & Htr). cbv beta in E.
  exists tr. split; [exact E | exact Htr].
Qed.
End EmittedLinks.

(** X6: every link the decoder hands to the sink, whatever the container and
    also in a run that ends in an error, is a version-1 cid made of the
    caller's codec and of a multihash with the code KECCAK_256; the codec is
    never changed on the way. *)
Theorem decoder_links_carry_codec (parse : list Z -> Error + list RawField)
    (src : list Z) (codec : Z) (l : Cid) :
  In (AssignLink l) (snd (run (DecodeTrieNodeBytes parse src codec))) ->
  exists h, l = cid_NewCidV1 codec (multihash_Encode h KECCAK_256).
Proof.
  unfold run, DecodeTrieNodeBytes.
  destruct (parse src) as [err|nodeFields]; [intros [] | ].
  destruct (decodeNodeFields_opens codec nodeFields) as (tr & E & Htr).
  unfold run in E. rewrite E. intros [H|H]; [discriminate H | ].
  rewrite Forall_forall in Htr. exact (Htr _ H).
Qed.

Lemma decoder_links_carry_codec_witness :
  exists h,
    keccak256ToCid 150 scenarioA_hash
    = cid_NewCidV1 150 (multihash_Encode h KECCAK_256).
Proof.
  apply (decoder_links_carry_codec rlpDecodeBytes scenarioA_src 150).
  vm_compute. do 14 right. left. reflexivity.
Defined.

(** X7: the chooser built by [AddSupportToChooser] answers with the TrieNode
    prototype and no error, without asking the existing chooser, for every
    link the decoder writes when it is called with the state trie codec; a
    link with another codec, or a link that is not a cid link, gets the
    answer of the existing chooser. *)
Theorem chooser_covers_decoder_links (NodePrototype LinkContext : Type)
    (TrieNode : NodePrototype) (existing : Chooser NodePrototype LinkContext)
    (lnkCtx : LinkContext) :
  (forall parse src l,
     In (AssignLink l) (snd (run (DecodeTrieNodeBytes parse src MultiCodecType))) ->
     AddSupportToChooser _ _ TrieNode existing (CidLink l) lnkCtx = (TrieNode, None)) /\
  (forall c, Cid_codec c <> MultiCodecType ->
     AddSupportToChooser _ _ TrieNode existing (CidLink c) lnkCtx
     = existing (CidLink c) lnkCtx) /\
  (forall id,
     AddSupportToChooser _ _ TrieNode existing (OtherLink id) lnkCtx
     = existing (OtherLink id) lnkCtx).
Proof.
  split; [ | split].
  - intros parse src l H.
    unfold run, DecodeTrieNodeBytes in H.
    destruct (parse src) as [err|nodeFields]; [destruct H | ].
    destruct (decodeNodeFields_opens MultiCodecType nodeFields) as (tr & E & Htr).
    unfold run in E. rewrite E in H. destruct H as [H|H]; [discriminate H | ].
    rewrite Forall_forall in Htr. destruct (Htr _ H) as [h ->]. reflexivity.
  - intros c Hc. unfold AddSupportToChooser.
    apply Z.eqb_neq in Hc. now rewrite Hc.
  - reflexivity.
Qed.

Lemma chooser_covers_decoder_links_witness :
  AddSupportToChooser nat unit 7 (fun _ _ => (0, Some UnknownHexPrefix))
    (CidLink (keccak256ToCid 150 scenarioA_hash)) tt = (7, None) /\
  AddSupportToChooser nat unit 7 (fun _ _ => (0, Some UnknownHexPrefix))
    (CidLink (keccak256ToCid 144 scenarioA_hash)) tt = (0, Some UnknownHexPrefix).
Proof.
  pose proof (chooser_covers_decoder_links nat unit 7
                (fun _ _ => (0, Some UnknownHexPrefix)) tt) as (Hdec & Hother & _).
  split.
  - apply (Hdec rlpDecodeBytes scenarioA_src).
    vm_compute. do 14 right. left. reflexivity.
  - apply Hother. vm_compute. discriminate.
Defined.

(** X8: [DecodeTrieNode] takes its bytes from [Bytes()] when the reader has
    that method and from [ioutil.ReadAll] otherwise.  When reading or the
    container parser fails, that error is returned and the sink is handed
    no call at all; once the container is parsed, the first call handed to
    the sink is [BeginMap(1)], whatever the container holds. *)
Theorem DecodeTrieNode_reads_then_opens
    (parse : list Z -> Error + list RawField) (input : Reader) (codec : Z) :
  let bytes :=
    match reader_Bytes input with
    | Some src => inr src
    | None => reader_ReadAll input
    end in
  match bytes with
  | inl err => run (DecodeTrieNode parse input codec) = (Err err, [])
  | inr src =>
      run (DecodeTrieNode parse input codec)
      = run (DecodeTrieNodeBytes parse src codec) /\
      match parse src with
      | inl err => run (DecodeTrieNodeBytes parse src codec) = (Err err, [])
      | inr _ =>
          exists tr,
            snd (run (DecodeTrieNodeBytes parse src codec)) = BeginMap 1 :: tr
      end
  end.
Proof.
  assert (H : forall src,
             match parse src with
             | inl err => run (DecodeTrieNodeBytes parse src codec) = (Err err, [])
             | inr _ =>
                 exists tr,
                   snd (run (DecodeTrieNodeBytes parse src codec)) = BeginMap 1 :: tr
             end).
  { intros src. unfold run, DecodeTrieNodeBytes.
    destruct (parse src) as [err|nodeFields]; [reflexivity | ].
    destruct (decodeNodeFields_opens codec nodeFields) as (tr & E & _).
    now exists tr. }
  unfold DecodeTrieNode. cbv zeta.
  destruct (reader_Bytes input) as [src|].
  - split; [reflexivity | apply H].
  - destruct (reader_ReadAll input) as [err|src]; [reflexivity | ].
    split; [reflexivity | apply H].
Qed.

(** ** Which containers are decoded, and how the others end *)

Lemma forallb_false_first {A : Type} (f : A -> bool) (l : list A) :
  forallb f l = false ->
  exists k x, nth_error l k = Some x /\ f x = false /\ forallb f (firstn k l) = true.
Proof.
  induction l as [|a l IH]; cbn [forallb]; [discriminate | ].
  destruct (f a) eqn:Ha; cbn [andb]; intros H.
  - destruct (IH H) as (k & x & Hk & Hx & Hpre). exists (S k), x.
    cbn [nth_error firstn forallb]. rewrite Ha. auto.
  - exists 0, a. auto.
Qed.

Lemma decodeNodeFields_other (nodeFields : list RawField) (codec : Z) :
  length nodeFields <> 2 ->
  length nodeFields <> 17 ->
  run (decodeNodeFields nodeFields codec) = (Ok tt, [BeginMap 1; Finish]).
Proof.
  intros H2 H17. unfold run, decodeNodeFields.
  remember (length nodeFields) as n eqn:Hn. clear Hn.
  do 18 (destruct n as [|n]; [first [lia | reflexivity] | ]). reflexivity.
Qed.

Lemma acceptable_not_two (nodeFields : list RawField) :
  length nodeFields <> 2 ->
  acceptable nodeFields
  = if length nodeFields =? 17 then
      forallb resolvableChild (firstn 16 nodeFields)
      && isBytes (nth 16 nodeFields (Fields []))
    else true.
Proof.
  intros H. destruct nodeFields as [|f0 [|f1 [|f2 rest]]];
    try reflexivity; try (cbn in H; lia).
  - destruct f0 as [[|b r]|l]; reflexivity.
  - destruct f0 as [[|b r]|l]; reflexivity.
Qed.

Section Outcome.
Variable codec : Z.

Lemma branch_child_leaf_error (nodeFields : list RawField) (i : nat)
    (c0 c1 : RawField) (s : list Call) :
  nth_error nodeFields i = Some (Fields [c0; c1]) ->
  (forall p v, [c0; c1] <> [Bytes p; Bytes v]) ->
  unpackBranchNode_child (K := recorder) nodeFields codec i s
  = (Err (leafFieldError c0),
     s ++ [AssignKey ("Child" ++ decimal i); BeginMap 1; AssignKey "Leaf"; BeginMap 2]).
Proof.
  intros Hi H. unfold unpackBranchNode_child. go_step. unfold index.
  rewrite Hi. go_step. cbn [length Nat.eqb negb]. go_step.
  rewrite unpackLeafNode_error by exact H. f_equal. trace_eq.
Qed.

(** A child that is not resolvable stops the loop with an error of the
    decoder, after calls that do not depend on what was written before. *)
Lemma branch_child_unresolved (nodeFields : list RawField) (i : nat) (f : RawField) :
  nth_error nodeFields i = Some f ->
  resolvableChild f = false ->
  exists e tr,
    decoderError e /\
    forall s, unpackBranchNode_child (K := recorder) nodeFields codec i s
              = (Err e, s ++ tr).
Proof.
  intros Hi Hf. destruct f as [b|child].
  - cbn [resolvableChild] in Hf. apply orb_false_iff in Hf. destruct Hf as [H0 H32].
    apply Nat.eqb_neq in H0. apply Nat.eqb_neq in H32.
    exists (InvalidChildLength (length b)), [AssignKey ("Child" ++ decimal i)].
    split; [exact I | intros s; now apply branch_child_length].
  - destruct (Nat.eq_dec (length child) 2) as [E|E].
    + destruct child as [|c0 [|c1 [|? ?]]]; try discriminate E.
      exists (leafFieldError c0),
        [AssignKey ("Child" ++ decimal i); BeginMap 1; AssignKey "Leaf"; BeginMap 2].
      split; [destruct c0; exact I | ].
      intros s. apply (branch_child_leaf_error nodeFields i c0 c1); [exact Hi | ].
      intros p v Heq. injection Heq as -> ->. discriminate Hf.
    + exists (InvalidEmbeddedNode (length child)), [AssignKey ("Child" ++ decimal i)].
      split; [exact I | intros s; now apply branch_child_count].
Qed.

Lemma decode_branch_unresolved (nodeFields : list RawField) :
  length nodeFields = 17 ->
  forallb resolvableChild (firstn 16 nodeFields) = false ->
  exists e, decoderError e /\ fst (run (decodeNodeFields nodeFields codec)) = Err e.
Proof.
  intros Hlen Hno.
  destruct (forallb_false_first _ _ Hno) as (k & x & Hk & Hx & Hpre).
  assert (Hk16 : k < 16).
  { assert (k < length (firstn 16 nodeFields))
      by (apply nth_error_Some; congruence).
    rewrite length_firstn in H. lia. }
  rewrite nth_error_firstn in Hk. apply Nat.ltb_lt in Hk16 as Hlt.
  rewrite Hlt in Hk. rewrite firstn_firstn in Hpre.
  replace (Nat.min k 16) with k in Hpre by lia.
  destruct (branch_child_unresolved nodeFields k x Hk Hx) as (e & tr & He & Hfail).
  exists e. split; [exact He | ].
  now rewrite (decode_branch_stops codec nodeFields Hlen e tr k Hk16 Hpre Hfail).
Qed.

Lemma extension_then_finish (path : list Z) (second : RawField) (e : Error) :
  fst (unpackExtensionNode (K := recorder) [Bytes path; second] codec
         [BeginMap 1; AssignKey "Extension"; BeginMap 2]) = Err e ->
  fst ((unpackExtensionNode (K := recorder) [Bytes path; second] codec ;;
        call Finish ;; call Finish)
         [BeginMap 1; AssignKey "Extension"; BeginMap 2]) = Err e.
Proof.
  cbn [bind M_Monad].
  destruct (unpackExtensionNode _ _ _) as [[[]|e'|q] s']; cbn [fst];
    intros H; try discriminate H; exact H.
Qed.

(** How the decoding of a 2-item node with a nonempty byte string first
    ends, by the flag nibble and the second field. *)
Lemma decode_two_outcome (b : Z) (rest : list Z) (second : RawField) :
  let r := fst (run (decodeNodeFields [Bytes (b :: rest); second] codec)) in
  if acceptable [Bytes (b :: rest); second] then r = Ok tt
  else exists e, decoderError e /\ r = Err e.
Proof.
  cbv zeta. unfold run.
  assert (Hunknown :
            (b / 16 <> 0)%Z -> (b / 16 <> 1)%Z -> (b / 16 <> 2)%Z -> (b / 16 <> 3)%Z ->
            fst (decodeNodeFields (K := recorder) [Bytes (b :: rest); second] codec [])
            = Err UnknownHexPrefix).
  { intros H0 H1 H2 H3. unfold decodeNodeFields. cbn [length]. go_step.
    rewrite decodeCompactKey_nonempty.
    destruct (b / 16)%Z as [|[[p|p|]|[p|p|]|]|p]; try reflexivity; congruence. }
  assert (Hext :
            (b / 16 = 0 \/ b / 16 = 1)%Z ->
            if match second with
               | Bytes _ => true
               | Fields [Bytes _; Bytes _] => true
               | Fields _ => false
               end
            then fst (decodeNodeFields (K := recorder)
                        [Bytes (b :: rest); second] codec []) = Ok tt
            else exists e, decoderError e /\
                   fst (decodeNodeFields (K := recorder)
                          [Bytes (b :: rest); second] codec []) = Err e).
  { intros Hb. rewrite decodeNodeFields_extension by exact Hb.
    destruct second as [childLink|child].
    - cbn [bind M_Monad]. now rewrite unpackExtensionNode_bytes.
    - destruct (Nat.eq_dec (length child) 2) as [E|E].
      + destruct child as [|c0 [|c1 [|? ?]]]; try discriminate E.
        destruct c0 as [p|l0]; [destruct c1 as [v|l1] | ].
        * cbn [bind M_Monad]. now rewrite unpackExtensionNode_inline.
        * exists MissingValueField. split; [exact I | ].
          apply extension_then_finish.
          apply (unpackExtensionNode_leaf_error codec _ (Bytes p) (Fields l1)).
          discriminate.
        * exists MissingPathField. split; [exact I | ].
          apply extension_then_finish.
          apply (unpackExtensionNode_leaf_error codec _ (Fields l0) c1).
          discriminate.
      + assert (Hno : match child with
                      | [Bytes _; Bytes _] => true
                      | _ => false
                      end = false).
        { destruct child as [|[?|?] [|[?|?] [|? ?]]]; try reflexivity. now elim E. }
        rewrite Hno. exists (InvalidEmbeddedNode (length child)).
        split; [exact I | ]. apply extension_then_finish.
        now rewrite unpackExtensionNode_count. }
  assert (Hleaf :
            (b / 16 = 2 \/ b / 16 = 3)%Z ->
            if isBytes second
            then fst (decodeNodeFields (K := recorder)
                        [Bytes (b :: rest); second] codec []) = Ok tt
            else exists e, decoderError e /\
                   fst (decodeNodeFields (K := recorder)
                          [Bytes (b :: rest); second] codec []) = Err e).
  { intros Hb. destruct second as [v|l]; cbn [isBytes].
    - now rewrite decode_leaf.
    - exists MissingValueField. split; [exact I | ].
      rewrite decodeNodeFields_leaf by exact Hb. cbn [bind M_Monad].
      rewrite unpackLeafNode_error by discriminate. reflexivity. }
  cbn [acceptable].
  destruct (b / 16)%Z as [|[[p|p|]|[p|p|]|]|p] eqn:Hb;
    try (exists UnknownHexPrefix; split; [exact I | ];
         apply Hunknown; discriminate);
    first [apply Hext; auto | apply Hleaf; auto].
Qed.
(** How every decoding ends: an acceptable container is decoded; any other
    one ends in an error of the decoder, or, for the two shapes of a 2-item
    node that [decodeCompactKey] does not guard against, in a panic right
    after the outer map was opened. *)
Lemma decode_outcome (nodeFields : list RawField) :
  if acceptable nodeFields then fst (run (decodeNodeFields nodeFields codec)) = Ok tt
  else
    (exists e, decoderError e /\
               fst (run (decodeNodeFields nodeFields codec)) = Err e) \/
    (exists second,
       nodeFields = [Bytes []; second] /\
       run (decodeNodeFields nodeFields codec)
       = (Panic (IndexOutOfRange 0 0), [BeginMap 1])) \/
    (exists l second,
       nodeFields = [Fields l; second] /\
       run (decodeNodeFields nodeFields codec)
       = (Panic InterfaceConversion, [BeginMap 1])).
Proof.
  destruct (Nat.eq_dec (length nodeFields) 2) as [E2|E2].
  - destruct nodeFields as [|f0 [|f1 [|? ?]]]; try discriminate E2.
    destruct f0 as [[|b rest]|l].
    + right. left. exists f1. split; reflexivity.
    + pose proof (decode_two_outcome b rest f1) as H. cbv zeta in H.
      destruct (acceptable [Bytes (b :: rest); f1]); [exact H | left; exact H].
    + right. right. exists l, f1. split; reflexivity.
  - rewrite acceptable_not_two by exact E2.
    destruct (length nodeFields =? 17) eqn:E17.
    + apply Nat.eqb_eq in E17.
      destruct (forallb resolvableChild (firstn 16 nodeFields)) eqn:Hok; cbn [andb].
      * rewrite (decode_branch_resolved codec nodeFields E17 Hok).
        destruct (nth_error_below nodeFields 16 ltac:(lia)) as [f16 H16].
        rewrite H16, (nth_error_nth _ _ (Fields []) H16).
        destruct f16 as [valBytes|l]; cbn [isBytes]; [reflexivity | ].
        left. exists InvalidBranchValue. split; [exact I | reflexivity].
      * left. now apply decode_branch_unresolved.
    + apply Nat.eqb_neq in E17. now rewrite decodeNodeFields_other.
Qed.
End Outcome.

Section OutcomeProperties.
Variable parse : list Z -> Error + list RawField.
Variable src : list Z.
Variable codec : Z.

(** X9: which inputs are decoded.  [DecodeTrieNodeBytes] returns no error
    exactly when the container parses to acceptable fields: a 2-item node
    that starts with flag nibble 2 or 3 and has a byte string as value, or
    starts with flag nibble 0 or 1 and has as child a byte string or a list
    of two byte strings; a 17-item node whose first sixteen fields are byte
    strings of length 0 or 32 or lists of two byte strings and whose 17th
    field is a byte string; or a container with any other number of items. *)
Theorem decode_succeeds_iff_acceptable :
  fst (run (DecodeTrieNodeBytes parse src codec)) = Ok tt
  <-> exists nodeFields, parse src = inr nodeFields /\ acceptable nodeFields = true.
Proof.
  unfold run, DecodeTrieNodeBytes. destruct (parse src) as [err|nodeFields].
  - split; [discriminate | intros (nf & H & _); discriminate H].
  - pose proof (decode_outcome codec nodeFields) as H. unfold run in H. split.
    + intros Hok. exists nodeFields. split; [reflexivity | ].
      destruct (acceptable nodeFields); [reflexivity | ].
      destruct H as [(e & _ & He)|[(second & _ & Hp)|(l & second & _ & Hp)]];
        rewrite ?Hp in Hok; cbn [fst] in Hok; congruence.
    + intros (nf & Hnf & Hacc). injection Hnf as <-. now rewrite Hacc in H.
Qed.

(** X10: how a decoding can end.  Once the container is parsed, against a
    sink that accepts every call, the result is a success, one of the six
    errors of the decoder (unknown hex prefix, embedded node of the wrong
    size, child of the wrong length, branch value, leaf path, leaf value),
    or one of the two panics of [decodeCompactKey].  The errors of the
    extension unpacker for a path that is no byte string and of the entry
    point for an unrecognized node kind are never returned. *)
Theorem decode_ends_in (nodeFields : list RawField) :
  parse src = inr nodeFields ->
  endsIn decoderError decoderPanic (fst (run (DecodeTrieNodeBytes parse src codec))) /\
  fst (run (DecodeTrieNodeBytes parse src codec)) <> Err ExtensionPathNotBytes /\
  (forall k, fst (run (DecodeTrieNodeBytes parse src codec))
             <> Err (UnrecognizedNodeType k)).
Proof.
  intros Hp.
  assert (H : endsIn decoderError decoderPanic
                (fst (run (DecodeTrieNodeBytes parse src codec)))).
  { rewrite (DecodeTrieNodeBytes_parsed _ _ _ _ Hp).
    pose proof (decode_outcome codec nodeFields) as H.
    destruct (acceptable nodeFields); [now rewrite H | ].
    destruct H as [(e & He & ->)|[(second & _ & ->)|(l & second & _ & ->)]].
    - exact He.
    - right. reflexivity.
    - left. reflexivity. }
  split; [exact H | ].
  destruct (fst (run (DecodeTrieNodeBytes parse src codec))) as [[]|e|p];
    split; try discriminate.
  - intros E. injection E as ->. exact H.
  - intros k E. injection E as ->. exact H.
Qed.
End OutcomeProperties.

Lemma decode_ends_in_witness :
  endsIn decoderError decoderPanic
    (fst (run (DecodeTrieNodeBytes rlpDecodeBytes branchWithEmptyListChild 150))) /\
  fst (run (DecodeTrieNodeBytes rlpDecodeBytes branchWithEmptyListChild 150))
  = Err (InvalidEmbeddedNode 0).
Proof.
  split; [ | reflexivity].
  apply (decode_ends_in rlpDecodeBytes branchWithEmptyListChild 150 _ eq_refl).
Defined.

(** X11: the only panics.  Against any sink, from any state of it,
    [DecodeTrieNodeBytes] panics exactly when the sink accepts the opening
    [BeginMap(1)] and the container is a 2-item node whose first field is
    the empty byte string or a list.  No other input, of any size or shape,
    makes the decoder panic. *)
Theorem decode_panics_iff {K : Sink} (parse : list Z -> Error + list RawField)
    (src : list Z) (codec : Z) (s : sink) :
  (exists p, fst (DecodeTrieNodeBytes parse src codec s) = Panic p)
  <-> (exists s', sink_call s (BeginMap 1) = inr s') /\
      (exists f0 second,
         parse src = inr [f0; second] /\ (f0 = Bytes [] \/ exists l, f0 = Fields l)).
Proof.
  unfold DecodeTrieNodeBytes. destruct (parse src) as [err|nodeFields].
  - split; [intros [p H]; discriminate H | intros (_ & f0 & second & H & _); discriminate H].
  - split.
    + intros [p Hp]. rewrite (Replays_decodeNodeFields nodeFields codec K s) in Hp.
      unfold replay in Hp.
      pose proof (decode_outcome codec nodeFields) as H. unfold run in H.
      assert (Hfeed : forall tr,
                 decodeNodeFields (K := recorder) nodeFields codec []
                 = (Panic p, tr) -> tr = [BeginMap 1] ->
                 exists s', sink_call s (BeginMap 1) = inr s').
      { intros tr E ->. rewrite E in Hp. cbn [snd fst feed] in Hp.
        destruct (sink_call s (BeginMap 1)) as [err|s'];
          [discriminate Hp | now exists s']. }
      match type of Hp with
      | context [feed s ?tr] => destruct (feed s tr) as [[err|] s1]
      end; cbn [fst] in Hp; [discriminate Hp | ].
      destruct (acceptable nodeFields); [congruence | ].
      destruct H as [(e & _ & He)|[(second & -> & Hr)|(l & second & -> & Hr)]].
      * congruence.
      * rewrite Hr in Hp. injection Hp as <-.
        split; [exact (Hfeed _ Hr eq_refl) | ].
        exists (Bytes []), second. auto.
      * rewrite Hr in Hp. injection Hp as <-.
        split; [exact (Hfeed _ Hr eq_refl) | ].
        exists (Fields l), second. split; [reflexivity | right; now exists l].
    + intros ([s' Hs] & f0 & second & Hnf & Hshape). injection Hnf as ->.
      unfold decodeNodeFields. cbn [length bind M_Monad]. unfold call at 1.
      rewrite Hs. destruct Hshape as [->|[l ->]].
      * now exists (IndexOutOfRange 0 0).
      * now exists InterfaceConversion.
Qed.

(** ** The node that is assembled *)

Lemma decimal_inj (i j : nat) : decimal i = decimal j -> i = j.
Proof.
  unfold decimal. intros H.
  apply (f_equal NilEmpty.uint_of_string) in H. rewrite !NilEmpty.usu in H.
  injection H as H. apply (f_equal Nat.of_uint) in H.
  now rewrite !DecimalNat.Unsigned.of_to in H.
Qed.

Lemma childKey_inj (i j : nat) :
  ("Child" ++ decimal i)%string = ("Child" ++ decimal j)%string -> i = j.
Proof. cbn [String.append]. intros H. injection H as H. now apply decimal_inj. Qed.

Lemma hasKey_keys (k : string) (es : list (string * Node)) :
  hasKey k es = existsb (fun key => String.eqb key k) (map fst es).
Proof.
  unfold hasKey. induction es as [|e es IH]; cbn [existsb map]; [reflexivity | ].
  now rewrite IH.
Qed.

Lemma hasKey_child_fresh (from : nat) (es : list (string * Node)) :
  map fst es = map (fun j => ("Child" ++ decimal j)%string) (seq 0 from) ->
  hasKey ("Child" ++ decimal from) es = false.
Proof.
  intros Hkeys. rewrite hasKey_keys, Hkeys.
  destruct (existsb _ _) eqn:E; [ | reflexivity].
  apply existsb_exists in E. destruct E as (key & Hin & Heq).
  apply in_map_iff in Hin. destruct Hin as (j & <- & Hj).
  apply in_seq in Hj. apply String.eqb_eq, childKey_inj in Heq. lia.
Qed.

Lemma branchChildEntries_keys (codec : Z) (children : list RawField) :
  forall from,
    map fst (branchChildEntries codec from children)
    = map (fun j => ("Child" ++ decimal j)%string) (seq from (length children)).
Proof.
  induction children as [|f children IH]; intro from;
    cbn [branchChildEntries map length seq fst]; [reflexivity | ].
  now rewrite IH.
Qed.

(** The assembling sink, with a map open, takes the calls for resolvable
    children and adds their entries to that map. *)
Lemma feed_children (codec : Z) (children : list RawField) :
  forall (from : nat) (es : list (string * Node)) (below : list Frame)
         (bt : option Node),
    forallb resolvableChild children = true ->
    map fst es = map (fun j => ("Child" ++ decimal j)%string) (seq 0 from) ->
    feed (K := assembler) (MkAssembly (MkFrame es None :: below) bt)
      (childrenCalls (fun p => p) codec from children)
    = (None,
       MkAssembly (MkFrame (es ++ branchChildEntries codec from children) None
                     :: below) bt).
Proof.
  induction children as [|f children IH]; intros from es below bt Hok Hkeys.
  - cbn [childrenCalls branchChildEntries feed]. now rewrite app_nil_r.
  - cbn [forallb] in Hok. apply andb_true_iff in Hok. destruct Hok as [Hf Hrest].
    assert (Hkeys' : forall v,
               map fst (es ++ [(("Child" ++ decimal from)%string, v)])
               = map (fun j => ("Child" ++ decimal j)%string) (seq 0 (S from))).
    { intros v. rewrite map_app, Hkeys, seq_S, map_app. reflexivity. }
    cbn [childrenCalls branchChildEntries].
    cbn [feed sink_call assembler open entries pending built].
    rewrite (hasKey_child_fresh from es Hkeys).
    destruct f as [b|[|[p|?] [|[v|?] [|? ?]]]]; try discriminate Hf.
    + cbn [childValueCalls branchChildNode].
      destruct (length b =? 0); cbn [app feed sink_call assembler store open
                                      entries pending built];
        rewrite IH by (try apply Hkeys'; assumption);
        now rewrite <- app_assoc.
    + cbn [childValueCalls branchChildNode inlineLeafCalls leafCalls app].
      cbn [feed sink_call assembler store expectsValue hasKey existsb
             open entries pending built app fst String.eqb Ascii.eqb Bool.eqb
             orb andb].
      rewrite IH by (try apply Hkeys'; assumption).
      now rewrite <- app_assoc.
Qed.

Lemma hasKey_value_fresh (codec : Z) (nodeFields : list RawField) :
  length nodeFields = 17 ->
  hasKey "Value" (branchChildEntries codec 0 (firstn 16 nodeFields)) = false.
Proof.
  intros Hlen. rewrite hasKey_keys, branchChildEntries_keys, length_firstn, Hlen.
  reflexivity.
Qed.

Lemma feed_branch (codec : Z) (nodeFields : list RawField) (valBytes : list Z) :
  length nodeFields = 17 ->
  forallb resolvableChild (firstn 16 nodeFields) = true ->
  nth_error nodeFields 16 = Some (Bytes valBytes) ->
  feed (K := assembler) (MkAssembly [] None)
    (branchOpening ++ childrenCalls (fun p => p) codec 0 (firstn 16 nodeFields)
       ++ [AssignKey "Value";
           if length valBytes =? 0 then AssignNull else AssignBytes valBytes;
           Finish; Finish])
  = (None, MkAssembly [] (Some (decodedNode codec nodeFields))).
Proof.
  intros Hlen Hok H16.
  assert (Hnode : decodedNode codec nodeFields
                  = NMap [("Branch",
                           NMap (branchChildEntries codec 0 (firstn 16 nodeFields)
                                 ++ [("Value",
                                      if length valBytes =? 0 then NNull
                                      else NBytes valBytes)]))]).
  { unfold decodedNode. rewrite (nth_error_nth _ _ (Fields []) H16).
    destruct nodeFields as [|f0 [|f1 [|f2 rest]]]; try discriminate Hlen.
    assert (E : (length (f0 :: f1 :: f2 :: rest) =? 17) = true)
      by (now rewrite Hlen).
    destruct valBytes; destruct f0 as [[|b r]|l]; rewrite E; reflexivity. }
  rewrite Hnode. unfold branchOpening. cbn [app].
  cbn [feed sink_call assembler expectsValue hasKey existsb store open entries
         pending built].
  rewrite feed_app, (feed_children codec _ 0 [] _ _ Hok eq_refl). cbn [app].
  cbn [feed sink_call assembler open entries pending built].
  rewrite (hasKey_value_fresh codec nodeFields Hlen).
  destruct (length valBytes =? 0); reflexivity.
Qed.

(** X12: the node behind an accepted container.  For acceptable fields the
    calls of the decoder, handed to the assembling sink, are all accepted
    (a key before every value, no key twice, every map finished) and build
    one node: a map with the single key Leaf, Extension or Branch, where a
    Branch has the seventeen entries Child0 to Child15 and Value in this
    order; a container of another size gives the empty map. *)
Theorem decode_assembles_node (parse : list Z -> Error + list RawField)
    (src : list Z) (codec : Z) (nodeFields : list RawField) :
  parse src = inr nodeFields ->
  acceptable nodeFields = true ->
  assemble (DecodeTrieNodeBytes parse src codec)
  = (Ok tt, Some (decodedNode codec nodeFields)).
Proof.
  intros Hp Hacc. rewrite (DecodeTrieNodeBytes_parsed _ _ _ _ Hp).
  unfold assemble.
  rewrite (Replays_decodeNodeFields nodeFields codec assembler). unfold replay.
  destruct (Nat.eq_dec (length nodeFields) 2) as [E2|E2].
  - destruct nodeFields as [|f0 [|f1 [|? ?]]]; try discriminate E2.
    destruct f0 as [[|b rest]|l]; try discriminate Hacc.
    cbn [acceptable] in Hacc. unfold decodedNode.
    destruct (b / 16)%Z as [|[[p|p|]|[p|p|]|]|p] eqn:Hb; try discriminate Hacc;
      cbn [Z.ltb Z.compare Pos.compare Pos.compare_cont].
    + (* flag 0 *)
      rewrite decodeNodeFields_extension by (left; exact Hb). cbn [bind M_Monad].
      destruct f1 as [childLink|[|[p|?] [|[v|?] [|? ?]]]]; try discriminate Hacc.
      * rewrite unpackExtensionNode_bytes. reflexivity.
      * rewrite unpackExtensionNode_inline. reflexivity.
    + (* flag 3 *)
      destruct f1 as [v|l]; [ | discriminate Hacc].
      rewrite decode_leaf by (right; exact Hb). reflexivity.
    + (* flag 2 *)
      destruct f1 as [v|l]; [ | discriminate Hacc].
      rewrite decode_leaf by (left; exact Hb). reflexivity.
    + (* flag 1 *)
      rewrite decodeNodeFields_extension by (right; exact Hb). cbn [bind M_Monad].
      destruct f1 as [childLink|[|[p|?] [|[v|?] [|? ?]]]]; try discriminate Hacc.
      * rewrite unpackExtensionNode_bytes. reflexivity.
      * rewrite unpackExtensionNode_inline. reflexivity.
  - rewrite acceptable_not_two in Hacc by exact E2.
    destruct (length nodeFields =? 17) eqn:E17.
    + apply Nat.eqb_eq in E17. apply andb_true_iff in Hacc.
      destruct Hacc as [Hok Hval].
      destruct (nth_error_below nodeFields 16 ltac:(lia)) as [f16 H16].
      rewrite (nth_error_nth _ _ (Fields []) H16) in Hval.
      destruct f16 as [valBytes|l]; [ | discriminate Hval].
      pose proof (decode_branch_resolved codec nodeFields E17 Hok) as Hrun.
      rewrite H16 in Hrun. unfold run in Hrun. rewrite Hrun. cbn [fst snd].
      rewrite (feed_branch codec nodeFields valBytes E17 Hok H16). reflexivity.
    + apply Nat.eqb_neq in E17.
      pose proof (decodeNodeFields_other nodeFields codec E2 E17) as Hrun.
      unfold run in Hrun. rewrite Hrun.
      assert (Hnode : decodedNode codec nodeFields = NMap []).
      { unfold decodedNode. apply Nat.eqb_neq in E17.
        destruct nodeFields as [|f0 [|f1 [|f2 rest]]];
          try (cbn in E2; lia); try reflexivity;
          destruct f0 as [[|b r]|l]; rewrite ?E17; reflexivity. }
      rewrite Hnode. reflexivity.
Qed.

Lemma decode_assembles_node_witness :
  assemble (DecodeTrieNodeBytes rlpDecodeBytes branchWithInlineLeaf 150)
  = (Ok tt,
     Some (NMap [("Branch",
                  NMap (("Child0", NMap [("Leaf", leafNode [58%Z] [1%Z])])
                        :: branchChildEntries 150 1 (repeat (Bytes []) 15)
                        ++ [("Value", NNull)]))])).
Proof.
  apply (decode_assembles_node rlpDecodeBytes branchWithInlineLeaf 150 _ eq_refl).
  reflexivity.
Defined.

(** ** What a failed decoding leaves behind *)



(** X14: the leaf unpacker looks at both of its fields before it writes.
    Against any sink, two fields that are not both byte strings make it
    return [MissingPathField] (first field) or [MissingValueField] (second
    field) with the sink untouched; so a top-level Leaf whose value is a
    list fails with [MissingValueField] once the "Leaf" map is opened, and
    no "PartialPath" entry is written. *)
Theorem leaf_checks_before_writing {K : Sink} (codec : Z) :
  (forall (f0 f1 : RawField) (s : sink),
     (forall p v, [f0; f1] <> [Bytes p; Bytes v]) ->
     unpackLeafNode [f0; f1] codec s = (Err (leafFieldError f0), s)) /\
  (forall parse src b rest l,
     parse src = inr [Bytes (b :: rest); Fields l] ->
     (b / 16 = 2 \/ b / 16 = 3)%Z ->
     run (DecodeTrieNodeBytes parse src codec)
     = (Err MissingValueField, [BeginMap 1; AssignKey "Leaf"; BeginMap 2])).
Proof.
  split.
  - intros f0 f1 s H. unfold unpackLeafNode. cbn [index nth_error bind ret M_Monad].
    destruct f0 as [p|l0]; [destruct f1 as [v|l1] | ]; try reflexivity.
    now elim (H p v).
  - intros parse src b rest l Hp Hb.
    rewrite (DecodeTrieNodeBytes_parsed _ _ _ _ Hp). unfold run.
    rewrite decodeNodeFields_leaf by exact Hb. cbn [bind M_Monad].
    rewrite unpackLeafNode_error by discriminate. reflexivity.
Qed.

Lemma leaf_checks_before_writing_witness :
  unpackLeafNode (K := assembler) [Fields []; Bytes [1%Z]] 150 (MkAssembly [] None)
  = (Err MissingPathField, MkAssembly [] None) /\
  run (DecodeTrieNodeBytes rlpDecodeBytes [194; 32; 192]%Z 150)
  = (Err MissingValueField, [BeginMap 1; AssignKey "Leaf"; BeginMap 2]).
Proof.
  split.
  - apply (proj1 (leaf_checks_before_writing (K := assembler) 150)).
    intros p v. discriminate.
  - apply (proj2 (leaf_checks_before_writing (K := recorder) 150)
             rlpDecodeBytes [194; 32; 192]%Z 32%Z [] []);
      [reflexivity | left; reflexivity].
Defined.
